(** * blkchain: the Postgres ingestion pipeline and [Uint256]

    A shallow embedding of [uint256.go] and of the Postgres writer
    (coordinator [pgBlockWorker], the four table writers, the resume
    queries and [NewPGWriter]), with the properties of the specification
    stated over it.

    Conventions.
    - Go's [int] and [int64] are 64-bit two's-complement integers, modelled
      as [Z] with the wrap-around of [++] written out ([incr64]).
    - A conversion [int32(x)] keeps the low 32 bits of [x] and reads them as
      a signed number ([int32]); [uint32] reads them as unsigned.
    - A channel is the list of the messages sent on it, oldest first; a
      [nil] message (the commit signal) is [None].
    - The store is the list of rows of each table, in insertion order.  The
      writers are modelled against a store whose begin, append and commit
      succeed: a failing call is only logged by the code. *)

From Stdlib Require Import ZArith NArith List Lia Bool.
From Stdlib.Strings Require Import String Ascii Byte.
From Stdlib Require Import Sorted.
Import ListNotations.

Local Open Scope Z_scope.

(** * Part I: the embedding *)

(** ** Machine integers *)

(** Reading the low [w] bits of [x] as a signed number. *)
Definition swrap (w : Z) (x : Z) : Z :=
  (x + 2 ^ (w - 1)) mod 2 ^ w - 2 ^ (w - 1).

(** Reading the low [w] bits of [x] as an unsigned number. *)
Definition uwrap (w : Z) (x : Z) : Z := x mod 2 ^ w.

(** Go's conversion [int32(x)] of an integer value. *)
Definition int32 (x : Z) : Z := swrap 32 x.

(** Go's conversion [uint32(x)] of an integer value. *)
Definition uint32 (x : Z) : Z := uwrap 32 x.

(** 64-bit signed wrap-around, for [int] and [int64] arithmetic. *)
Definition wrap64 (x : Z) : Z := swrap 64 x.

(** [x++] on an [int] or [int64] variable. *)
Definition incr64 (x : Z) : Z := wrap64 (x + 1).

Definition is_uint32 (x : Z) : Prop := 0 <= x < 2 ^ 32.
Definition is_int32 (x : Z) : Prop := - 2 ^ 31 <= x < 2 ^ 31.
Definition is_int64 (x : Z) : Prop := - 2 ^ 63 <= x < 2 ^ 63.

(** ** [Uint256] ([uint256.go]) *)

(** [type Uint256 [32]byte]: the bytes in index order.  The array type fixes
    the length at 32; [wf_Uint256] states it. *)
Definition Uint256 : Type := list byte.

Definition wf_Uint256 (u : Uint256) : Prop := List.length u = 32%nat.

Fixpoint bytes_eqb (a b : list byte) : bool :=
  match a, b with
  | [], [] => true
  | x :: a', y :: b' => Byte.eqb x y && bytes_eqb a' b'
  | _, _ => false
  end.

Module Hex.

(** The digits [fmt] uses for the verb [%x]. *)
Definition ldigits : list ascii :=
  list_ascii_of_string "0123456789abcdef".

Definition digit (n : N) : ascii := nth (N.to_nat n) ldigits "0"%char.

(** [fmt.Sprintf("%02x", b)] for a byte [b]: two digits, high nibble
    first, padded with a zero. *)
Definition Sprintf_02x (b : byte) : string :=
  let n := Byte.to_N b in
  String (digit (N.div n 16)) (String (digit (N.modulo n 16)) EmptyString).

(** The value of a lower-case hexadecimal digit. *)
Definition undigit (c : ascii) : option N :=
  let n := N_of_ascii c in
  if ((48 <=? n) && (n <=? 57))%N then Some (n - 48)%N
  else if ((97 <=? n) && (n <=? 102))%N then Some (n - 87)%N
  else None.

Definition is_lower_hex (c : ascii) : bool :=
  match undigit c with Some _ => true | None => false end.

(** Reading a string of digit pairs back into bytes. *)
Fixpoint decode (s : string) : option (list byte) :=
  match s with
  | EmptyString => Some []
  | String hi (String lo rest) =>
      match undigit hi, undigit lo, decode rest with
      | Some h, Some l, Some bs =>
          match Byte.of_N (h * 16 + l) with
          | Some b => Some (b :: bs)
          | None => None
          end
      | _, _, _ => None
      end
  | String _ EmptyString => None
  end.

End Hex.

(** [func (u Uint256) String() (s string)]: the loop body run [k] times
    from index [i] on, starting from the accumulated [s].  Indexing is
    [u[31-i]]; the default byte is never read when [u] has its 32 bytes. *)
Fixpoint String_loop (u : Uint256) (k : nat) (i : nat) (s : string) : string :=
  match k with
  | O => s
  | S k' =>
      String_loop u k' (S i)
        (s ++ Hex.Sprintf_02x (nth (31 - i) u x00))%string
  end.

Definition Uint256_String (u : Uint256) : string :=
  String_loop u 32 0 EmptyString.

(** ** Errors and [strings.Contains] *)

(** A Go [error], kept as the text its [Error()] method returns. *)
Definition error : Type := string.

(** [strings.Contains(s, substr)]: [substr] occurs somewhere within [s]. *)
Fixpoint Contains (s substr : string) : bool :=
  if String.prefix substr s then true
  else match s with
       | EmptyString => false
       | String _ s' => Contains s' substr
       end.

(** ** Blocks and transactions as the writer reads them *)

(** Modelled from the spec: the struct [OutPoint] (section 3, TxIn:
    [prevout_hash] and [prevout_n], a uint32); its declaration is not among
    the source files. *)
Record OutPoint : Type := mkOutPoint
  { op_Hash : Uint256;
    op_N : Z }.

(** Modelled from the spec: the struct [TxIn] (section 3).  [Witness] is
    [None] for a nil witness; a witness that is present is carried by the
    bytes that [BinWrite] serialises it to. *)
Record TxIn : Type := mkTxIn
  { PrevOut : OutPoint;
    ScriptSig : list byte;
    Sequence : Z;
    Witness : option (list byte) }.

(** Modelled from the spec: the struct [TxOut] (section 3). *)
Record TxOut : Type := mkTxOut
  { Value : Z;
    ScriptPubKey : list byte }.

(** Modelled from the spec: the struct [Tx] (section 3).  [tx_Hash] is the
    value of the method [Hash()], whose code is not among the source
    files. *)
Record Tx : Type := mkTx
  { tx_Version : Z;
    TxIns : list TxIn;
    TxOuts : list TxOut;
    LockTime : Z;
    tx_Hash : Uint256 }.

(** Modelled from the spec: the struct [Block] with its header fields
    (section 3).  [blk_Hash] is the value of the method [Hash()]. *)
Record Block : Type := mkBlock
  { Version : Z;
    PrevHash : Uint256;
    HashMerkleRoot : Uint256;
    Time : Z;
    Bits : Z;
    Nonce : Z;
    Txs : list Tx;
    blk_Hash : Uint256 }.

(** [type BlockInfo struct] *)
Record BlockInfo : Type := mkBlockInfo
  { bi_Block : Block;
    Height : Z;
    Status : Z;
    FileN : Z;
    FilePos : Z }.

(** The unsigned 32-bit fields hold unsigned 32-bit values. *)
Definition wf_TxIn (t : TxIn) : Prop :=
  is_uint32 (op_N (PrevOut t)) /\ is_uint32 (Sequence t).

Definition wf_Tx (t : Tx) : Prop :=
  is_uint32 (tx_Version t) /\ is_uint32 (LockTime t).

Definition wf_Block (b : Block) : Prop :=
  is_uint32 (Version b) /\ is_uint32 (Time b) /\
  is_uint32 (Bits b) /\ is_uint32 (Nonce b).

(** ** The records sent to the writers *)

(** [type blockRec struct].  The field [sync] is a channel that is either
    nil or the coordinator's sync channel: [true] stands for the latter. *)
Record blockRec : Type := mkBlockRec
  { br_id : Z;
    br_height : Z;
    br_block : Block;
    br_hash : Uint256;
    br_orphan : bool;
    br_status : Z;
    br_filen : Z;
    br_filepos : Z;
    br_sync : bool }.

(** [type txRec struct] *)
Record txRec : Type := mkTxRec
  { tr_id : Z;
    tr_blockId : Z;
    tr_n : Z;
    tr_tx : Tx;
    tr_hash : Uint256;
    tr_sync : bool;
    tr_dupe : bool }.

(** [type txInRec struct].  The field [idCache] points to the one cache the
    coordinator created; the writer reaches that shared cache through it, so
    the record carries no copy. *)
Record txInRec : Type := mkTxInRec
  { ir_txId : Z;
    ir_n : Z;
    ir_txIn : TxIn }.

(** [type txOutRec struct] *)
Record txOutRec : Type := mkTxOutRec
  { or_txId : Z;
    or_n : Z;
    or_txOut : TxOut }.

(** ** The tx-id cache *)

(** Modelled from the spec: an entry of the tx-id cache (section 3): the
    key is the tx hash, the value the assigned id and the remaining
    outputs. *)
Record cacheEntry : Type := mkCacheEntry
  { ce_hash : Uint256;
    ce_id : Z;
    ce_outs : Z }.

(** Modelled from the spec: the type [txIdCache] (section 4.3), whose code
    is not among the source files: a bounded map with least-recently-used
    eviction and the counters hits, misses, collisions, dupes and
    evictions.  [entries] lists the entries most recently used first. *)
Record txIdCache : Type := mkTxIdCache
  { entries : list cacheEntry;
    sz : Z;
    hits : Z;
    miss : Z;
    cols : Z;
    dups : Z;
    evic : Z }.

(** Modelled from the spec: [newTxIdCache(size)], an empty cache of the
    requested capacity. *)
Definition newTxIdCache (size : Z) : txIdCache :=
  {| entries := []; sz := size; hits := 0; miss := 0; cols := 0;
     dups := 0; evic := 0 |}.

Fixpoint cache_find (h : Uint256) (es : list cacheEntry) : option cacheEntry :=
  match es with
  | [] => None
  | e :: es' => if bytes_eqb (ce_hash e) h then Some e else cache_find h es'
  end.

Fixpoint cache_remove (h : Uint256) (es : list cacheEntry) : list cacheEntry :=
  match es with
  | [] => []
  | e :: es' =>
      if bytes_eqb (ce_hash e) h then cache_remove h es'
      else e :: cache_remove h es'
  end.

(** Modelled from the spec: [add(hash, id, outputs)] (section 4.3).  A hash
    that is present returns the stored id, keeps its entry and becomes the
    most recently used; otherwise the entry is inserted, the least recently
    used one is evicted when the capacity is exceeded, and [id] is
    returned. *)
Definition add (c : txIdCache) (h : Uint256) (id : Z) (outs : Z)
  : Z * txIdCache :=
  match cache_find h (entries c) with
  | Some e =>
      (ce_id e,
       {| entries := e :: cache_remove h (entries c); sz := sz c;
          hits := hits c; miss := miss c; cols := cols c;
          dups := dups c + 1; evic := evic c |})
  | None =>
      let es := mkCacheEntry h id outs :: entries c in
      if sz c <? Z.of_nat (List.length es) then
        (id,
         {| entries := removelast es; sz := sz c;
            hits := hits c; miss := miss c; cols := cols c;
            dups := dups c; evic := evic c + 1 |})
      else
        (id,
         {| entries := es; sz := sz c;
            hits := hits c; miss := miss c; cols := cols c;
            dups := dups c; evic := evic c |})
  end.

(** Modelled from the spec: [check(hash)] (section 4.3).  A hash that is
    present returns its id and becomes the most recently used; an absent
    one returns nil. *)
Definition check (c : txIdCache) (h : Uint256) : option Z * txIdCache :=
  match cache_find h (entries c) with
  | Some e =>
      (Some (ce_id e),
       {| entries := e :: cache_remove h (entries c); sz := sz c;
          hits := hits c + 1; miss := miss c; cols := cols c;
          dups := dups c; evic := evic c |})
  | None =>
      (None,
       {| entries := entries c; sz := sz c;
          hits := hits c; miss := miss c + 1; cols := cols c;
          dups := dups c; evic := evic c |})
  end.

(** ** The coordinator [pgBlockWorker] *)

(** What the coordinator does on its channels, in program order: a send on
    one of the four writer channels ([None] is the nil commit signal) or a
    receive on the sync channel. *)
Inductive Event : Type :=
| SendBlock (m : option blockRec)
| SendTx (m : option txRec)
| SendTxIn (m : option txInRec)
| SendTxOut (m : option txOutRec)
| RecvSync.

(** The messages of each channel, in the order they were sent. *)
Fixpoint blockCh (evs : list Event) : list (option blockRec) :=
  match evs with
  | [] => []
  | SendBlock m :: evs' => m :: blockCh evs'
  | _ :: evs' => blockCh evs'
  end.

Fixpoint txCh (evs : list Event) : list (option txRec) :=
  match evs with
  | [] => []
  | SendTx m :: evs' => m :: txCh evs'
  | _ :: evs' => txCh evs'
  end.

Fixpoint txInCh (evs : list Event) : list (option txInRec) :=
  match evs with
  | [] => []
  | SendTxIn m :: evs' => m :: txInCh evs'
  | _ :: evs' => txInCh evs'
  end.

Fixpoint txOutCh (evs : list Event) : list (option txOutRec) :=
  match evs with
  | [] => []
  | SendTxOut m :: evs' => m :: txOutCh evs'
  | _ :: evs' => txOutCh evs'
  end.

(** The records of a channel, commit signals left out. *)
Fixpoint recs {A : Type} (ms : list (option A)) : list A :=
  match ms with
  | [] => []
  | Some a :: ms' => a :: recs ms'
  | None :: ms' => recs ms'
  end.

(** The number of commit signals on a channel. *)
Fixpoint nils {A : Type} (ms : list (option A)) : Z :=
  match ms with
  | [] => 0
  | Some _ :: ms' => nils ms'
  | None :: ms' => 1 + nils ms'
  end.

(** [for n, x := range xs]: the elements with their indices from [i]. *)
Fixpoint enum_from {A : Type} (i : Z) (xs : list A) : list (Z * A) :=
  match xs with
  | [] => []
  | x :: xs' => (i, x) :: enum_from (i + 1) xs'
  end.

Definition enumerate {A : Type} (xs : list A) : list (Z * A) :=
  enum_from 0 xs.

(** A loop over a list whose body updates a state and performs events. *)
Fixpoint run_loop {S A : Type} (body : S -> A -> S * list Event)
  (st : S) (xs : list A) : S * list Event :=
  match xs with
  | [] => (st, [])
  | x :: xs' =>
      let '(st1, evs1) := body st x in
      let '(st2, evs2) := run_loop body st1 xs' in
      (st2, evs1 ++ evs2)
  end.

(** The coordinator's local variables [bid], [txid], [txcnt] and the cache
    [idCache] it created. *)
Record Coord : Type := mkCoord
  { bid : Z;
    txid : Z;
    txcnt : Z;
    idCache : txIdCache }.

(** [for n, txin := range tx.TxIns { txInCh <- &txInRec{...} }] *)
Definition sendTxIns (id : Z) (ins : list TxIn) : list Event :=
  map (fun p => SendTxIn (Some (mkTxInRec id (fst p) (snd p))))
      (enumerate ins).

(** [for n, txout := range tx.TxOuts { txOutCh <- &txOutRec{...} }] *)
Definition sendTxOuts (id : Z) (outs : list TxOut) : list Event :=
  map (fun p => SendTxOut (Some (mkTxOutRec id (fst p) (snd p))))
      (enumerate outs).

(** [if syncCh != nil { <-syncCh }] *)
Definition waitSync (syncCh : bool) : list Event :=
  if syncCh then [RecvSync] else [].

(** The body of [for n, tx := range bi.Txs]. *)
Definition processTx (syncCh : bool) (st : Coord) (p : Z * Tx)
  : Coord * list Event :=
  let n := fst p in
  let tx := snd p in
  let txid1 := incr64 (txid st) in
  let txcnt1 := incr64 (txcnt st) in
  let hash := tx_Hash tx in
  let '(recentId, cache1) :=
    add (idCache st) hash txid1 (Z.of_nat (List.length (TxOuts tx))) in
  let st1 := mkCoord (bid st) txid1 txcnt1 cache1 in
  let dupe := negb (recentId =? txid1) in
  let rec :=
    {| tr_id := recentId; tr_n := n; tr_blockId := bid st; tr_tx := tx;
       tr_hash := hash; tr_sync := syncCh; tr_dupe := dupe |} in
  let evs := SendTx (Some rec) :: waitSync syncCh in
  if dupe then (st1, evs)
  else (st1, evs ++ sendTxIns txid1 (TxIns tx) ++ sendTxOuts txid1 (TxOuts tx)).

(** The commit signals that end the processing of a block. *)
Definition commitSignals (deferredIndexes : bool) (id : Z) : list Event :=
  if negb deferredIndexes then [SendTxIn None; SendTxOut None]
  else if Z.rem id 50 =? 0 then
    [SendBlock None; SendTx None; SendTxIn None; SendTxOut None]
  else [].

(** The body of the main loop [for bi := range ch]. *)
Definition processBlock (deferredIndexes : bool) (st : Coord) (bi : BlockInfo)
  : Coord * list Event :=
  let syncCh := negb deferredIndexes in
  let bid1 := incr64 (bid st) in
  let hash := blk_Hash (bi_Block bi) in
  let rec :=
    {| br_id := bid1; br_height := Height bi; br_block := bi_Block bi;
       br_hash := hash; br_orphan := false; br_status := Status bi;
       br_filen := FileN bi; br_filepos := FilePos bi; br_sync := syncCh |} in
  let st1 := mkCoord bid1 (txid st) (txcnt st) (idCache st) in
  let '(st2, evs2) :=
    run_loop (processTx syncCh) st1 (enumerate (Txs (bi_Block bi))) in
  (st2,
   (SendBlock (Some rec) :: waitSync syncCh) ++ evs2
     ++ commitSignals deferredIndexes bid1).

(** The main loop over the blocks left on the input channel. *)
Definition mainLoop (deferredIndexes : bool) (st : Coord) (ch : list BlockInfo)
  : Coord * list Event :=
  run_loop (processBlock deferredIndexes) st ch.

(** The skip loop [for b := range ch] under [if len(bhash) > 0]: it returns
    what is left on the channel and the count [skip]. *)
Fixpoint skipLoop (bhash : list byte) (ch : list BlockInfo) (skip : Z)
  : list BlockInfo * Z :=
  match ch with
  | [] => ([], skip)
  | b :: ch' =>
      if bytes_eqb bhash (blk_Hash (bi_Block b)) then (ch', skip)
      else skipLoop bhash ch' (incr64 skip)
  end.

(** ** The store *)

Record BlockRow : Type := mkBlockRow
  { b_id : Z;
    b_height : Z;
    b_hash : list byte;
    b_version : Z;
    b_prevhash : list byte;
    b_merkleroot : list byte;
    b_time : Z;
    b_bits : Z;
    b_nonce : Z;
    b_orphan : bool;
    b_status : Z;
    b_filen : Z;
    b_filepos : Z }.

Record TxRow : Type := mkTxRow
  { t_id : Z;
    t_txid : list byte;
    t_version : Z;
    t_locktime : Z }.

Record BlockTxRow : Type := mkBlockTxRow
  { bt_block_id : Z;
    bt_n : Z;
    bt_tx_id : Z }.

Record TxInRow : Type := mkTxInRow
  { i_tx_id : Z;
    i_n : Z;
    i_prevout_hash : list byte;
    i_prevout_n : Z;
    i_scriptsig : list byte;
    i_sequence : Z;
    i_witness : option (list byte);
    i_prevout_tx_id : option Z }.

Record TxOutRow : Type := mkTxOutRow
  { o_tx_id : Z;
    o_n : Z;
    o_value : Z;
    o_scriptpubkey : list byte }.

(** How a query of [database/sql] can fail: at [db.Query], at [rows.Scan],
    or while iterating ([rows.Next()] is false and [rows.Err()] is set). *)
Inductive Fault : Type :=
| NoFault
| QueryFails (e : error)
| ScanFails (e : error)
| RowsErr (e : error).

(** The database as the resume queries and [createTables] see it: the rows
    of [blocks] and [txs], how the two queries behave, and the error, if
    any, that executing the table DDL returns. *)
Record DB : Type := mkDB
  { blocks : list BlockRow;
    txs : list TxRow;
    blocks_fault : Fault;
    txs_fault : Fault;
    ddl_result : option error }.

(** [ORDER BY key DESC LIMIT 1]: a row whose key is greatest, if there is
    a row.  SQL leaves the choice among rows of equal key open; the first
    one in storage order is taken here. *)
Fixpoint top_by {A : Type} (key : A -> Z) (rows : list A) : option A :=
  match rows with
  | [] => None
  | r :: rows' =>
      match top_by key rows' with
      | Some r' => if key r <? key r' then Some r' else Some r
      | None => Some r
      end
  end.

(** [func getLastHashAndHeight(db) (int, int, []byte, error)], on the query
    [SELECT id, height, hash FROM blocks ORDER BY height DESC LIMIT 1]. *)
Definition getLastHashAndHeight (db : DB) : Z * Z * list byte * option error :=
  match blocks_fault db with
  | QueryFails e => (0, 0, [], Some e)
  | RowsErr e => (0, -1, [], Some e)
  | ScanFails e =>
      match top_by b_height (blocks db) with
      | Some _ => (0, 0, [], Some e)
      | None => (0, -1, [], None)
      end
  | NoFault =>
      match top_by b_height (blocks db) with
      | Some r => (b_id r, b_height r, b_hash r, None)
      | None => (0, -1, [], None)
      end
  end.

(** [func getLastTxId(db) (int64, error)], on the query
    [SELECT id FROM txs ORDER BY id DESC LIMIT 1]. *)
Definition getLastTxId (db : DB) : Z * option error :=
  match txs_fault db with
  | QueryFails e => (0, Some e)
  | RowsErr e => (0, Some e)
  | ScanFails e =>
      match top_by t_id (txs db) with
      | Some _ => (0, Some e)
      | None => (0, None)
      end
  | NoFault =>
      match top_by t_id (txs db) with
      | Some r => (t_id r, None)
      | None => (0, None)
      end
  end.

(** [func createTables(db) error]: the error of executing the DDL. *)
Definition createTables (db : DB) : option error := ddl_result db.

(** [func pgBlockWorker(ch, wg, db, deferredIndexes, cacheSize)] up to the
    closing of the writer channels: [None] when a resume query fails (the
    worker logs and returns before any writer is started), otherwise the
    final state and everything done on the channels.  [ch] lists the blocks
    the input channel delivers before it is closed. *)
Definition pgBlockWorker (ch : list BlockInfo) (db : DB)
  (deferredIndexes : bool) (cacheSize : Z) : option (Coord * list Event) :=
  match getLastHashAndHeight db with
  | (_, _, _, Some _) => None
  | (bid0, _, bhash, None) =>
      match getLastTxId db with
      | (_, Some _) => None
      | (txid0, None) =>
          let ch1 :=
            if 0 <? Z.of_nat (List.length bhash)
            then fst (skipLoop bhash ch 0) else ch in
          let idCache0 := newTxIdCache cacheSize in
          Some (mainLoop deferredIndexes (mkCoord bid0 txid0 0 idCache0) ch1)
      end
  end.


(** ** [NewPGWriter] *)

(** The goroutines [NewPGWriter] starts. *)
Inductive Goroutine : Type :=
| GoBlockWorker (deferredIndexes : bool) (cacheSize : Z)
| GoUTXOWriter.

(** [type PGWriter struct]: the database handle; the two channels are
    created empty. *)
Record PGWriter : Type := mkPGWriter
  { pw_db : DB }.

(** [func NewPGWriter(connstr, cacheSize)], which returns a writer and an
    error.  [opened] is
    what [sql.Open] returns for the connection string.  The result lists
    the goroutines that were started. *)
Definition NewPGWriter (opened : DB + error) (cacheSize : Z)
  : option PGWriter * option error * list Goroutine :=
  match opened with
  | inr err => (None, Some err, [])
  | inl db =>
      match createTables db with
      | Some err =>
          if Contains err "already exists" then
            (Some (mkPGWriter db), None,
             [GoBlockWorker false cacheSize; GoUTXOWriter])
          else (None, Some err, [])
      | None =>
          (Some (mkPGWriter db), None,
           [GoBlockWorker true cacheSize; GoUTXOWriter])
      end
  end.

(** ** The writers *)

(** A bulk-load stream on a table: the rows committed so far and the rows
    appended to the open transaction. *)
Record Stream (Row : Type) : Type := mkStream
  { committed : list Row;
    pending : list Row }.

Arguments mkStream {Row} _ _.
Arguments committed {Row} _.
Arguments pending {Row} _.

(** [begin(db, table, cols)] on a table holding [rows]. *)
Definition begin {Row : Type} (rows : list Row) : Stream Row :=
  mkStream rows [].

(** [stmt.Exec(fields...)]: one more row on the open stream. *)
Definition exec {Row : Type} (s : Stream Row) (r : Row) : Stream Row :=
  mkStream (committed s) (pending s ++ [r]).

(** [commit(stmt, txn)] followed by [begin] of the next stream. *)
Definition commit {Row : Type} (s : Stream Row) : Stream Row :=
  mkStream (committed s ++ pending s) [].

(** The row [pgBlockWriter] appends for a record. *)
Definition blockRow (br : blockRec) : BlockRow :=
  let b := br_block br in
  {| b_id := br_id br;
     b_height := br_height br;
     b_hash := br_hash br;
     b_version := int32 (Version b);
     b_prevhash := PrevHash b;
     b_merkleroot := HashMerkleRoot b;
     b_time := int32 (Time b);
     b_bits := int32 (Bits b);
     b_nonce := int32 (Nonce b);
     b_orphan := br_orphan br;
     b_status := int32 (br_status br);
     b_filen := int32 (br_filen br);
     b_filepos := int32 (br_filepos br) |}.

(** The loop of [pgBlockWriter] over the messages of its channel, and the
    commit after the channel is closed. *)
Fixpoint pgBlockWriter_loop (c : list (option blockRec)) (s : Stream BlockRow)
  : Stream BlockRow :=
  match c with
  | [] => commit s
  | None :: c' => pgBlockWriter_loop c' (commit s)
  | Some br :: c' =>
      let s1 := exec s (blockRow br) in
      pgBlockWriter_loop c' (if br_sync br then commit s1 else s1)
  end.

Definition pgBlockWriter (c : list (option blockRec)) (tbl : list BlockRow)
  : list BlockRow :=
  committed (pgBlockWriter_loop c (begin tbl)).

(** The rows [pgTxWriter] appends for a record: one of [txs] and one of
    [block_txs]. *)
Definition txRow (tr : txRec) : TxRow :=
  let t := tr_tx tr in
  {| t_id := tr_id tr;
     t_txid := tr_hash tr;
     t_version := int32 (tx_Version t);
     t_locktime := int32 (LockTime t) |}.

Definition blockTxRow (tr : txRec) : BlockTxRow :=
  {| bt_block_id := tr_blockId tr; bt_n := tr_n tr; bt_tx_id := tr_id tr |}.

(** The body of the loop of [pgTxWriter] for a record: the [txs] row is
    appended unless the record is flagged [dupe], the [block_txs] row
    always; a record with a sync channel commits both streams. *)
Definition pgTxWriter_step (tr : txRec)
  (s : Stream TxRow) (bs : Stream BlockTxRow)
  : Stream TxRow * Stream BlockTxRow :=
  let s1 := if negb (tr_dupe tr) then exec s (txRow tr) else s in
  let bs1 := exec bs (blockTxRow tr) in
  if tr_sync tr then (commit s1, commit bs1) else (s1, bs1).

Fixpoint pgTxWriter_loop (c : list (option txRec))
  (s : Stream TxRow) (bs : Stream BlockTxRow)
  : Stream TxRow * Stream BlockTxRow :=
  match c with
  | [] => (commit s, commit bs)
  | None :: c' => pgTxWriter_loop c' (commit s) (commit bs)
  | Some tr :: c' =>
      let '(s1, bs1) := pgTxWriter_step tr s bs in
      pgTxWriter_loop c' s1 bs1
  end.

(** [pgTxWriter] on tables holding [tbl] and [btbl]: the rows of [txs] and
    of [block_txs] once the channel is closed. *)
Definition pgTxWriter (c : list (option txRec))
  (tbl : list TxRow) (btbl : list BlockTxRow)
  : list TxRow * list BlockTxRow :=
  let '(s, bs) := pgTxWriter_loop c (begin tbl) (begin btbl) in
  (committed s, committed bs).

(** The row [pgTxInWriter] appends for a record, with the shared cache as
    it is when the record is handled: the cache is asked only when the
    input is not a coinbase input. *)
Definition txInRow (cache : txIdCache) (tr : txInRec) : TxInRow * txIdCache :=
  let t := ir_txIn tr in
  let wb := Witness t in
  let '(prevOutTxId, cache1) :=
    if negb (op_N (PrevOut t) =? 4294967295)
    then check cache (op_Hash (PrevOut t))
    else (None, cache) in
  ({| i_tx_id := ir_txId tr;
      i_n := ir_n tr;
      i_prevout_hash := op_Hash (PrevOut t);
      i_prevout_n := int32 (op_N (PrevOut t));
      i_scriptsig := ScriptSig t;
      i_sequence := int32 (Sequence t);
      i_witness := wb;
      i_prevout_tx_id := prevOutTxId |},
   cache1).

(** The loop of [pgTxInWriter].  The cache is shared with the coordinator,
    which runs concurrently: [others k] is what the coordinator did to the
    cache between the writer's handling of its [k]-th record and the
    one before. *)
Fixpoint pgTxInWriter_loop (others : nat -> txIdCache -> txIdCache)
  (k : nat) (c : list (option txInRec)) (cache : txIdCache)
  (s : Stream TxInRow) : Stream TxInRow * txIdCache :=
  match c with
  | [] => (commit s, cache)
  | None :: c' => pgTxInWriter_loop others k c' cache (commit s)
  | Some tr :: c' =>
      let '(row, cache1) := txInRow (others k cache) tr in
      pgTxInWriter_loop others (S k) c' cache1 (exec s row)
  end.

Definition pgTxInWriter (others : nat -> txIdCache -> txIdCache)
  (c : list (option txInRec)) (cache : txIdCache) (tbl : list TxInRow)
  : list TxInRow :=
  committed (fst (pgTxInWriter_loop others 0 c cache (begin tbl))).

(** The row [pgTxOutWriter] appends for a record, and its loop. *)
Definition txOutRow (tr : txOutRec) : TxOutRow :=
  let t := or_txOut tr in
  {| o_tx_id := or_txId tr;
     o_n := or_n tr;
     o_value := Value t;
     o_scriptpubkey := ScriptPubKey t |}.

Fixpoint pgTxOutWriter_loop (c : list (option txOutRec)) (s : Stream TxOutRow)
  : Stream TxOutRow :=
  match c with
  | [] => commit s
  | None :: c' => pgTxOutWriter_loop c' (commit s)
  | Some tr :: c' => pgTxOutWriter_loop c' (exec s (txOutRow tr))
  end.

Definition pgTxOutWriter (c : list (option txOutRec)) (tbl : list TxOutRow)
  : list TxOutRow :=
  committed (pgTxOutWriter_loop c (begin tbl)).

(** ** Reading the stored values back *)

(** The text [Uint256_String] is meant to produce for a list of bytes:
    the two digits of each byte, in the order of the list. *)
Fixpoint hex_of_bytes (l : list byte) : string :=
  match l with
  | [] => EmptyString
  | b :: l' => (Hex.Sprintf_02x b ++ hex_of_bytes l')%string
  end.

(** A column [s] stores the unsigned 32-bit value [v] bit for bit: [s] is
    a signed 32-bit value with the bits of [v], the all-ones pattern is
    [-1], and reading the bits as unsigned gives [v] back. *)
Definition stores_bits (v s : Z) : Prop :=
  is_int32 s /\
  (forall i, 0 <= i < 32 -> Z.testbit s i = Z.testbit v i) /\
  (v = 4294967295 -> s = -1) /\
  uint32 s = v.

(** ** Notions used to state the properties *)

(** A commit signal: a nil message on one of the writer channels. *)
Definition is_signal (e : Event) : bool :=
  match e with
  | SendBlock None | SendTx None | SendTxIn None | SendTxOut None => true
  | _ => false
  end.

(** The records of the events carry the sync channel exactly when [s]. *)
Definition sync_is (s : bool) (e : Event) : Prop :=
  match e with
  | SendBlock (Some r) => br_sync r = s
  | SendTx (Some r) => tr_sync r = s
  | _ => True
  end.

(** The number of transactions of the blocks of a channel. *)
Fixpoint total_txs (ch : list BlockInfo) : Z :=
  match ch with
  | [] => 0
  | bi :: ch' => Z.of_nat (List.length (Txs (bi_Block bi))) + total_txs ch'
  end.

(** The ids [base+1, base+2, ...] are the ids minted for the records of
    [R] in order; a record carries the id minted for it exactly when it is
    not flagged [dupe]. *)
Fixpoint minted_ok (base : Z) (R : list txRec) : Prop :=
  match R with
  | [] => True
  | r :: R' =>
      (tr_dupe r = false <-> tr_id r = base + 1) /\ minted_ok (base + 1) R'
  end.





(** The row of [txins] comes from the record [tr], handled with the shared
    cache in state [cache]. *)
Definition row_of (r : TxInRow) (tr : txInRec) (cache : txIdCache) : Prop :=
  r = fst (txInRow cache tr).

(** The tx record the coordinator sends for a transaction, given what the
    cache returned. *)
Definition txRecOf (syncCh : bool) (st : Coord) (p : Z * Tx) (recentId : Z)
  : txRec :=
  {| tr_id := recentId; tr_n := fst p; tr_blockId := bid st;
     tr_tx := snd p; tr_hash := tx_Hash (snd p); tr_sync := syncCh;
     tr_dupe := negb (recentId =? incr64 (txid st)) |}.

(** The ids [base+1, ..., base+n]. *)
Fixpoint count_up (base : Z) (n : nat) : list Z :=
  match n with
  | O => []
  | S n' => (base + 1) :: count_up (base + 1) n'
  end.

(** The tx records that are not flagged [dupe]. *)
Definition fresh_recs (R : list txRec) : list txRec :=
  filter (fun r => negb (tr_dupe r)) R.


(** The rows of [txs] whose [txid] is [h]. *)
Definition rows_for (h : Uint256) (rows : list TxRow) : list TxRow :=
  filter (fun row => bytes_eqb (t_txid row) h) rows.

(** ** A small chain for the instances *)

Module Sample.

Definition h32 (b : byte) : Uint256 := repeat b 32.

(** A coinbase transaction with one output of 50 coins. *)
Definition cbA : Tx :=
  {| tx_Version := 1;
     TxIns := [mkTxIn (mkOutPoint (h32 x00) 4294967295) [x04] 4294967295 None];
     TxOuts := [mkTxOut 5000000000 [xac]];
     LockTime := 0;
     tx_Hash := h32 x01 |}.

(** A transaction spending the output of [cbA]. *)
Definition txB : Tx :=
  {| tx_Version := 1;
     TxIns := [mkTxIn (mkOutPoint (h32 x01) 0) [x30] 4294967295 None];
     TxOuts := [mkTxOut 4000000000 [xac]; mkTxOut 1000000000 [xac]];
     LockTime := 0;
     tx_Hash := h32 x02 |}.

Definition block (hash prev : byte) (txs : list Tx) : Block :=
  {| Version := 1; PrevHash := h32 prev; HashMerkleRoot := h32 xee;
     Time := 1231006505; Bits := 486604799; Nonce := 2083236893;
     Txs := txs; blk_Hash := h32 hash |}.

(** Three blocks in a row; the second one lists the coinbase of the first
    again, as the early chain does. *)
Definition bi0 : BlockInfo := mkBlockInfo (block xa0 x00 [cbA]) 0 0 0 8.
Definition bi1 : BlockInfo := mkBlockInfo (block xa1 xa0 [cbA; txB]) 1 0 0 293.
Definition bi2 : BlockInfo := mkBlockInfo (block xa2 xa1 []) 2 0 0 800.

(** A side branch: another block at height 1 on top of [bi0]. *)
Definition bi1' : BlockInfo := mkBlockInfo (block xb1 xa0 []) 1 0 0 1100.

(** The coordinator on an empty store. *)
Definition st0 (cacheSize : Z) : Coord := mkCoord 0 0 0 (newTxIdCache cacheSize).

Definition emptyDB : DB := mkDB [] [] NoFault NoFault None.

(** The next block on the main branch. *)
Definition bi3 : BlockInfo := mkBlockInfo (block xa3 xa2 []) 3 0 0 1400.

(** Blocks holding only [txB], and only [cbA] once more. *)
Definition biB : BlockInfo := mkBlockInfo (block xa4 xa0 [txB]) 1 0 0 293.
Definition biA : BlockInfo := mkBlockInfo (block xa5 xa4 [cbA]) 2 0 0 500.

(** A first load: the main branch up to height 2, then the side branch. *)
Definition firstRun : Coord * list Event :=
  mainLoop true (st0 10) [bi0; bi1; bi2; bi1'].

(** The store the four writers leave after the first load. *)
Definition storeAfter : DB :=
  {| blocks := pgBlockWriter (blockCh (snd firstRun)) [];
     txs := fst (pgTxWriter (txCh (snd firstRun)) [] []);
     blocks_fault := NoFault;
     txs_fault := NoFault;
     ddl_result := Some "pq: relation blocks already exists"%string |}.

End Sample.

(** ** The writers while their channel is open *)



(** ** The UTXO writer *)


(** A row of [utxos].  The writer fills the six columns of its column
    list; [tx_id] stays NULL until the linking pass. *)
Record UtxoRow : Type := mkUtxoRow
  { x_tx_id : option Z;
    x_txid : list byte;
    x_n : Z;
    x_height : Z;
    x_coinbase : bool;
    x_value : Z;
    x_scriptpubkey : list byte }.




(** ** Notions used to state further properties *)

(** The input and output records the coordinator sends for a tx record. *)
Definition txInRecsOf (r : txRec) : list txInRec :=
  map (fun p => mkTxInRec (tr_id r) (fst p) (snd p))
      (enumerate (TxIns (tr_tx r))).

Definition txOutRecsOf (r : txRec) : list txOutRec :=
  map (fun p => mkTxOutRec (tr_id r) (fst p) (snd p))
      (enumerate (TxOuts (tr_tx r))).

(** Block id, position and transaction, for each transaction of the input
    in order, when the block ids are [b0+1, b0+2, ...]. *)
Fixpoint expected_positions (b0 : Z) (ch : list BlockInfo)
  : list (Z * Z * Tx) :=
  match ch with
  | [] => []
  | bi :: ch' =>
      map (fun p => (b0 + 1, fst p, snd p)) (enumerate (Txs (bi_Block bi)))
        ++ expected_positions (b0 + 1) ch'
  end.


(** Program order of parents and children: every tx record is sent after
    the record of its block, and every input or output record after a tx
    record with its id that is not flagged [dupe].  [bids] and [tids] are
    the ids of the block records and of the unflagged tx records sent
    before [evs]. *)
Fixpoint parents_first (bids tids : list Z) (evs : list Event) : Prop :=
  match evs with
  | [] => True
  | SendBlock (Some r) :: evs' => parents_first (br_id r :: bids) tids evs'
  | SendTx (Some r) :: evs' =>
      In (tr_blockId r) bids /\
      parents_first bids (if tr_dupe r then tids else tr_id r :: tids) evs'
  | SendTxIn (Some r) :: evs' =>
      In (ir_txId r) tids /\ parents_first bids tids evs'
  | SendTxOut (Some r) :: evs' =>
      In (or_txId r) tids /\ parents_first bids tids evs'
  | _ :: evs' => parents_first bids tids evs'
  end.

(** The sync handshake in a list of events: every block or tx record is
    followed at once by a receive on the sync channel, and there is no
    other receive.  [pending] tells whether a record was just sent. *)
Fixpoint sync_waits (pending : bool) (evs : list Event) : bool :=
  match evs with
  | [] => negb pending
  | e :: evs' =>
      if pending then
        match e with
        | RecvSync => sync_waits false evs'
        | _ => false
        end
      else
        match e with
        | SendBlock (Some _) | SendTx (Some _) => sync_waits true evs'
        | RecvSync => false
        | _ => sync_waits false evs'
        end
  end.

Definition is_recv (e : Event) : bool :=
  match e with
  | RecvSync => true
  | _ => false
  end.

(** The inputs and outputs sent agree with the tx records sent. *)
Definition children_match (evs : list Event) : Prop :=
  recs (txInCh evs) = flat_map txInRecsOf (fresh_recs (recs (txCh evs))) /\
  recs (txOutCh evs) = flat_map txOutRecsOf (fresh_recs (recs (txCh evs))).



(** An event that takes no part in the sync handshake. *)
Definition is_quiet (e : Event) : bool :=
  match e with
  | SendBlock (Some _) | SendTx (Some _) | RecvSync => false
  | _ => true
  end.

(** ** The fixup statements, on the rows of the tables *)

(** The SQL statements of the fixup phase are modelled by their effect on
    the rows when the statement succeeds.  The guard [IF NOT EXISTS
    (SELECT constraint_name ...)] of a statement is the boolean [done]:
    [true] when the constraint it looks for exists. *)

(** [UPDATE txins i SET prevout_tx_id = t.id FROM txs t WHERE
    i.prevout_hash = t.txid AND i.prevout_tx_id IS NULL AND i.n <> -1], for
    one row [i].  When several rows of [txs] match, SQL leaves open which
    one is used; the first in storage order is taken here. *)
Definition fixPrevoutRow (txs : list TxRow) (i : TxInRow) : TxInRow :=
  match i_prevout_tx_id i with
  | Some _ => i
  | None =>
      if i_n i =? -1 then i
      else
        match find (fun t => bytes_eqb (i_prevout_hash i) (t_txid t)) txs with
        | Some t =>
            {| i_tx_id := i_tx_id i; i_n := i_n i;
               i_prevout_hash := i_prevout_hash i;
               i_prevout_n := i_prevout_n i; i_scriptsig := i_scriptsig i;
               i_sequence := i_sequence i; i_witness := i_witness i;
               i_prevout_tx_id := Some (t_id t) |}
        | None => i
        end
  end.

(** [func fixPrevoutTxId(db) error]: the rows of [txins] afterwards.  The
    update runs unless the constraint [txins_tx_id_fkey] exists. *)
Definition fixPrevoutTxId (done : bool) (txs : list TxRow)
  (txins : list TxInRow) : list TxInRow :=
  if done then txins else map (fixPrevoutRow txs) txins.

(** A row of [utxos] with its [tx_id] set. *)
Definition linkRow (u : UtxoRow) (t : TxRow) : UtxoRow :=
  {| x_tx_id := Some (t_id t); x_txid := x_txid u; x_n := x_n u;
     x_height := x_height u; x_coinbase := x_coinbase u;
     x_value := x_value u; x_scriptpubkey := x_scriptpubkey u |}.

(** [func linkUTXOs(db) error]: the rows of [utxos] afterwards.  Unless the
    constraint [utxos_pkey] exists, the table is replaced by [SELECT t.id
    AS tx_id, u.txid, ... FROM utxos u JOIN txs t ON t.txid = u.txid].
    SQL leaves the order of the joined rows open; they are listed by
    [utxos] row, then by [txs] row. *)
Definition linkUTXOs (done : bool) (txs : list TxRow) (utxos : list UtxoRow)
  : list UtxoRow :=
  if done then utxos
  else
    flat_map
      (fun u => map (linkRow u)
                    (filter (fun t => bytes_eqb (t_txid t) (x_txid u)) txs))
      utxos.

(** A row of the recursive query [recur] of [setOrphans]: [id], [prevhash]
    and the depth [n]. *)
Record RecurRow : Type := mkRecurRow
  { rc_id : Z;
    rc_prevhash : list byte;
    rc_n : Z }.

(** The non-recursive term: [SELECT id, prevhash, 0 AS n FROM blocks WHERE
    height IN (SELECT height FROM blocks ORDER BY height DESC LIMIT 1)]. *)
Definition recur_base (blocks : list BlockRow) : list RecurRow :=
  match top_by b_height blocks with
  | None => []
  | Some top =>
      map (fun b => mkRecurRow (b_id b) (b_prevhash b) 0)
          (filter (fun b => b_height b =? b_height top) blocks)
  end.

(** The recursive term on the working table [w]: [SELECT blocks.id,
    blocks.prevhash, n+1 AS n FROM recur JOIN blocks ON blocks.hash =
    recur.prevhash], with [WHERE n < limit] added when [limit > 0].  The
    depth is not bounded to 32 bits here. *)
Definition recur_step (limit : Z) (blocks : list BlockRow)
  (w : list RecurRow) : list RecurRow :=
  flat_map
    (fun r =>
       if (0 <? limit) && negb (rc_n r <? limit) then []
       else
         map (fun b => mkRecurRow (b_id b) (b_prevhash b) (rc_n r + 1))
             (filter (fun b => bytes_eqb (b_hash b) (rc_prevhash r)) blocks))
    w.

(** [WITH RECURSIVE ... UNION ALL]: the working table is added to the
    result and replaced by the recursive term applied to it, until it is
    empty.  [None] when that takes more than [fuel] rounds. *)
Fixpoint recur_rows (fuel : nat) (limit : Z) (blocks : list BlockRow)
  (w : list RecurRow) : option (list RecurRow) :=
  match w with
  | [] => Some []
  | _ :: _ =>
      match fuel with
      | O => None
      | S fuel' =>
          match recur_rows fuel' limit blocks (recur_step limit blocks w) with
          | Some x => Some (w ++ x)
          | None => None
          end
      end
  end.

Definition set_orphan (b : BlockRow) (o : bool) : BlockRow :=
  {| b_id := b_id b; b_height := b_height b; b_hash := b_hash b;
     b_version := b_version b; b_prevhash := b_prevhash b;
     b_merkleroot := b_merkleroot b; b_time := b_time b; b_bits := b_bits b;
     b_nonce := b_nonce b; b_orphan := o; b_status := b_status b;
     b_filen := b_filen b; b_filepos := b_filepos b |}.

(** [func setOrphans(db, limit) error]: the rows of [blocks] afterwards.
    [UPDATE blocks SET orphan = a.orphan FROM (SELECT blocks.id, x.id IS
    NULL AS orphan FROM blocks LEFT JOIN (...recur...) x ON blocks.id =
    x.id) a WHERE blocks.id = a.id]: every row of [blocks] joins a row of
    [a] with its id, and all rows of [a] with one id agree on [orphan],
    which tells whether no row of [recur] has that id. *)
Definition setOrphans (fuel : nat) (limit : Z) (blocks : list BlockRow)
  : option (list BlockRow) :=
  match recur_rows fuel limit blocks (recur_base blocks) with
  | None => None
  | Some x =>
      Some (map (fun b =>
                   set_orphan b (negb (existsb (fun r => rc_id r =? b_id b) x)))
                blocks)
  end.

(** The block [b] is [k] links below a block of greatest height, following
    [prevhash] to [hash]. *)
Inductive chain_at (blocks : list BlockRow) : nat -> BlockRow -> Prop :=
| chain_tip (b : BlockRow) :
    In b blocks ->
    (forall c, In c blocks -> b_height c <= b_height b) ->
    chain_at blocks 0 b
| chain_parent (k : nat) (c b : BlockRow) :
    chain_at blocks k c ->
    In b blocks ->
    b_hash b = b_prevhash c ->
    chain_at blocks (S k) b.

(** The columns of a [txins] row other than [prevout_tx_id]. *)
Definition txin_cols (i : TxInRow)
  : Z * Z * list byte * Z * list byte * Z * option (list byte) :=
  (i_tx_id i, i_n i, i_prevout_hash i, i_prevout_n i, i_scriptsig i,
   i_sequence i, i_witness i).

(** The columns of a [utxos] row other than [tx_id]. *)
Definition utxo_cols (r : UtxoRow) : list byte * Z * Z * bool * Z * list byte :=
  (x_txid r, x_n r, x_height r, x_coinbase r, x_value r, x_scriptpubkey r).

(** What the back-fill does to a row: [o] is the row [i] afterwards. *)
Definition backfilled (txs : list TxRow) (i o : TxInRow) : Prop :=
  txin_cols o = txin_cols i /\
  (i_prevout_tx_id i <> None -> o = i) /\
  (forall id, i_prevout_tx_id i = None -> i_prevout_tx_id o = Some id ->
              exists t, In t txs /\ t_txid t = i_prevout_hash i /\ t_id t = id) /\
  (i_n i <> -1 ->
   (exists t, In t txs /\ t_txid t = i_prevout_hash i) ->
   i_prevout_tx_id o <> None).

(** The working table of [recur] in its [k]-th round. *)
Definition recur_level (limit : Z) (blocks : list BlockRow) (k : nat)
  : list RecurRow :=
  Nat.iter k (recur_step limit blocks) (recur_base blocks).

(** The block with the id of [b] is reached by the walk of [setOrphans]:
    some block with that id is [k] links below a block of greatest height,
    with [k <= limit] when the limit is positive. *)
Definition on_walk (limit : Z) (blocks : list BlockRow) (b : BlockRow) : Prop :=
  exists k c, chain_at blocks k c /\ b_id c = b_id b /\
              (0 < limit -> Z.of_nat k <= limit).

(** * Part II: properties *)

(** ** Machine integers *)

Lemma pow2_31 : 2 ^ 31 = 2147483648.
Proof. reflexivity. Qed.

Lemma pow2_32 : 2 ^ 32 = 4294967296.
Proof. reflexivity. Qed.

Lemma pow2_63 : 2 ^ 63 = 9223372036854775808.
Proof. reflexivity. Qed.

Lemma pow2_64 : 2 ^ 64 = 18446744073709551616.
Proof. reflexivity. Qed.

Lemma int32_range x : is_int32 (int32 x).
Proof.
  unfold is_int32, int32, swrap.
  change (32 - 1) with 31. rewrite pow2_31, pow2_32.
  pose proof (Z.mod_pos_bound (x + 2147483648) 4294967296). lia.
Qed.

(** [int32] never changes the value modulo [2^32]. *)
Lemma int32_congr x : (int32 x) mod 2 ^ 32 = x mod 2 ^ 32.
Proof.
  unfold int32, swrap. change (32 - 1) with 31. rewrite pow2_31, pow2_32.
  pose proof (Z.div_mod (x + 2147483648) 4294967296 ltac:(lia)) as E.
  replace ((x + 2147483648) mod 4294967296 - 2147483648)
    with (x + (- ((x + 2147483648) / 4294967296)) * 4294967296) by lia.
  apply Z.mod_add. lia.
Qed.

Lemma uint32_int32 x : is_uint32 x -> uint32 (int32 x) = x.
Proof.
  intros H. unfold uint32, uwrap. rewrite int32_congr.
  apply Z.mod_small. exact H.
Qed.

(** The low 32 bits of [int32 x] are those of [x]. *)
Lemma int32_testbit x i :
  0 <= i < 32 -> Z.testbit (int32 x) i = Z.testbit x i.
Proof.
  intros Hi.
  rewrite <- (Z.mod_pow2_bits_low (int32 x) 32 i) by lia.
  rewrite int32_congr. apply Z.mod_pow2_bits_low. lia.
Qed.

Lemma int32_stores v : is_uint32 v -> stores_bits v (int32 v).
Proof.
  intros H. repeat split.
  - apply int32_range.
  - apply int32_range.
  - intros i Hi. now apply int32_testbit.
  - intros ->. reflexivity.
  - now apply uint32_int32.
Qed.

Lemma wrap64_small x : is_int64 x -> wrap64 x = x.
Proof.
  unfold is_int64, wrap64, swrap. intros H.
  change (64 - 1) with 63. rewrite pow2_63 in *. rewrite pow2_64.
  rewrite Z.mod_small by lia. lia.
Qed.

Lemma incr64_small x : - 2 ^ 63 <= x + 1 < 2 ^ 63 -> incr64 x = x + 1.
Proof. intros H. apply wrap64_small. exact H. Qed.

(** C9.  Every unsigned 32-bit input field is stored bit for bit in its
    signed 32-bit column: [version], [time], [bits], [nonce], [status],
    [filen] and [filepos] of a block row, [version] and [locktime] of a tx
    row, [prevout_n] and [sequence] of an input row.  The stored value has
    the bit pattern of the field, [0xFFFFFFFF] is stored as [-1], and
    reading the stored bits as unsigned gives the field back. *)
Theorem uint32_fields_stored_bit_preserving :
  forall (br : blockRec) (tr : txRec) (ir : txInRec) (cache : txIdCache),
    wf_Block (br_block br) ->
    is_uint32 (br_status br) ->
    is_uint32 (br_filen br) ->
    is_uint32 (br_filepos br) ->
    wf_Tx (tr_tx tr) ->
    wf_TxIn (ir_txIn ir) ->
    let b := blockRow br in
    let t := txRow tr in
    let i := fst (txInRow cache ir) in
    stores_bits (Version (br_block br)) (b_version b) /\
    stores_bits (Time (br_block br)) (b_time b) /\
    stores_bits (Bits (br_block br)) (b_bits b) /\
    stores_bits (Nonce (br_block br)) (b_nonce b) /\
    stores_bits (br_status br) (b_status b) /\
    stores_bits (br_filen br) (b_filen b) /\
    stores_bits (br_filepos br) (b_filepos b) /\
    stores_bits (tx_Version (tr_tx tr)) (t_version t) /\
    stores_bits (LockTime (tr_tx tr)) (t_locktime t) /\
    stores_bits (op_N (PrevOut (ir_txIn ir))) (i_prevout_n i) /\
    stores_bits (Sequence (ir_txIn ir)) (i_sequence i).
Proof.
  intros br tr ir cache (Hv & Ht & Hb & Hn) Hs Hf Hp (Htv & Htl) (Hin & Hsq).
  assert (Ei : forall c, i_prevout_n (fst (txInRow c ir))
                         = int32 (op_N (PrevOut (ir_txIn ir)))
                         /\ i_sequence (fst (txInRow c ir))
                            = int32 (Sequence (ir_txIn ir))).
  { intros c. unfold txInRow.
    destruct (negb (op_N (PrevOut (ir_txIn ir)) =? 4294967295));
      [destruct (check c (op_Hash (PrevOut (ir_txIn ir))))|]; simpl; auto. }
  destruct (Ei cache) as [E1 E2].
  cbv zeta. rewrite E1, E2. simpl.
  repeat split; try (apply int32_stores; assumption).
Qed.

(** An instance of C9: all-ones fields are stored as [-1] and read back. *)
Lemma uint32_fields_stored_bit_preserving_witness :
  let blk := mkBlock 1 [] [] 4294967295 486604799 2083236893 [] [] in
  let br := mkBlockRec 1 0 blk [] false 0 0 4294967295 false in
  let tx := mkTx 1 [] [] 4294967295 [] in
  let tr := mkTxRec 1 1 0 tx [] false false in
  let ir := mkTxInRec 1 0 (mkTxIn (mkOutPoint [] 4294967295) [] 4294967295 None) in
  stores_bits 4294967295 (b_time (blockRow br)) /\
  stores_bits 4294967295 (i_prevout_n (fst (txInRow (newTxIdCache 10) ir))).
Proof.
  intros blk br tx tr ir.
  assert (U : forall v, (0 <=? v) && (v <? 4294967296) = true -> is_uint32 v).
  { intros v H. apply andb_true_iff in H. unfold is_uint32. rewrite pow2_32. lia. }
  pose proof (uint32_fields_stored_bit_preserving br tr ir (newTxIdCache 10)) as T.
  cbv zeta in T.
  assert (Hb : wf_Block (br_block br)) by (repeat split; apply U; reflexivity).
  assert (Ht : wf_Tx (tr_tx tr)) by (repeat split; apply U; reflexivity).
  assert (Hi : wf_TxIn (ir_txIn ir)) by (repeat split; apply U; reflexivity).
  assert (H1 : is_uint32 (br_status br)) by (apply U; reflexivity).
  assert (H2 : is_uint32 (br_filen br)) by (apply U; reflexivity).
  assert (H3 : is_uint32 (br_filepos br)) by (apply U; reflexivity).
  destruct (T Hb H1 H2 H3 Ht Hi) as (_ & T2 & _ & _ & _ & _ & _ & _ & _ & T10 & _).
  split; [exact T2 | exact T10].
Defined.

(** ** [Uint256.String] *)

Lemma string_app_assoc (a b c : string) :
  ((a ++ b) ++ c)%string = (a ++ (b ++ c))%string.
Proof. induction a as [|x a IH]; simpl; [reflexivity | now rewrite IH]. Qed.

Lemma string_app_nil_r (a : string) : (a ++ EmptyString)%string = a.
Proof. induction a as [|x a IH]; simpl; [reflexivity | now rewrite IH]. Qed.

(** The loop appends the digits of the bytes it visits, in visiting order. *)
Lemma String_loop_spec (u : Uint256) (k i : nat) (s : string) :
  String_loop u k i s
  = (s ++ hex_of_bytes (map (fun j => nth (31 - j) u x00) (seq i k)))%string.
Proof.
  revert i s; induction k as [|k IH]; intros i s; simpl.
  - now rewrite string_app_nil_r.
  - rewrite IH, string_app_assoc. reflexivity.
Qed.

(** With 32 bytes, the bytes visited are those of [u] from the last to the
    first. *)
Lemma visited_bytes_rev (u : Uint256) :
  wf_Uint256 u ->
  map (fun j => nth (31 - j) u x00) (seq 0 32) = rev u.
Proof.
  unfold wf_Uint256. intros H.
  do 32 (destruct u as [|? u]; [discriminate H|]).
  destruct u; [reflexivity | discriminate H].
Qed.

Lemma Sprintf_02x_decode (b : byte) (s : string) :
  Hex.decode (Hex.Sprintf_02x b ++ s)
  = match Hex.decode s with Some bs => Some (b :: bs) | None => None end.
Proof. destruct b; simpl; destruct (Hex.decode s); reflexivity. Qed.

Lemma Sprintf_02x_lower (b : byte) :
  Forall (fun c => Hex.is_lower_hex c = true)
         (list_ascii_of_string (Hex.Sprintf_02x b)).
Proof. destruct b; repeat constructor. Qed.

Lemma hex_of_bytes_length (l : list byte) :
  String.length (hex_of_bytes l) = (2 * List.length l)%nat.
Proof. induction l as [|b l IH]; simpl; [reflexivity | rewrite IH; lia]. Qed.

Lemma hex_of_bytes_decode (l : list byte) :
  Hex.decode (hex_of_bytes l) = Some l.
Proof.
  induction l as [|b l IH]; [reflexivity|].
  change (hex_of_bytes (b :: l)) with (Hex.Sprintf_02x b ++ hex_of_bytes l)%string.
  now rewrite Sprintf_02x_decode, IH.
Qed.

Lemma hex_of_bytes_lower (l : list byte) :
  Forall (fun c => Hex.is_lower_hex c = true)
         (list_ascii_of_string (hex_of_bytes l)).
Proof.
  induction l as [|b l IH]; [constructor|].
  pose proof (Sprintf_02x_lower b) as Hb.
  unfold hex_of_bytes; fold hex_of_bytes. unfold Hex.Sprintf_02x in *.
  simpl in *. inversion Hb as [|? ? H1 Hb']; subst.
  inversion Hb' as [|? ? H2 _]; subst.
  constructor; [exact H1 | constructor; [exact H2 | exact IH]].
Qed.

(** C10.  For a [Uint256] value [u] (32 bytes), [u.String()] is a string of
    exactly 64 characters, each a lower-case hexadecimal digit, that spells
    the bytes of [u] in reverse order: [u[31]] first, [u[0]] last. *)
Theorem Uint256_String_reversed_hex :
  forall u : Uint256,
    wf_Uint256 u ->
    String.length (Uint256_String u) = 64%nat /\
    Forall (fun c => Hex.is_lower_hex c = true)
           (list_ascii_of_string (Uint256_String u)) /\
    Uint256_String u = hex_of_bytes (rev u) /\
    Hex.decode (Uint256_String u) = Some (rev u).
Proof.
  intros u Hu.
  assert (E : Uint256_String u = hex_of_bytes (rev u)).
  { unfold Uint256_String. rewrite String_loop_spec.
    rewrite (visited_bytes_rev u Hu). reflexivity. }
  rewrite E. repeat split.
  - rewrite hex_of_bytes_length, length_rev. unfold wf_Uint256 in Hu.
    rewrite Hu. reflexivity.
  - apply hex_of_bytes_lower.
  - apply hex_of_bytes_decode.
Qed.

(** An instance of C10: the bytes 0, 1, ..., 31. *)
Lemma Uint256_String_reversed_hex_witness :
  let u := [x00; x01; x02; x03; x04; x05; x06; x07;
            x08; x09; x0a; x0b; x0c; x0d; x0e; x0f;
            x10; x11; x12; x13; x14; x15; x16; x17;
            x18; x19; x1a; x1b; x1c; x1d; x1e; x1f] in
  wf_Uint256 u /\
  Uint256_String u
  = "1f1e1d1c1b1a191817161514131211100f0e0d0c0b0a09080706050403020100"%string.
Proof.
  intros u. split; [reflexivity|].
  destruct (Uint256_String_reversed_hex u eq_refl) as (_ & _ & E & _).
  rewrite E. reflexivity.
Defined.

(** ** [NewPGWriter] *)

Lemma prefix_app (p s : string) :
  String.prefix p s = true <-> exists post, s = (p ++ post)%string.
Proof.
  revert s; induction p as [|a p IH]; intros s.
  - simpl. split; [intros _; now exists s | now destruct s].
  - destruct s as [|b s]; simpl.
    + split; [discriminate | intros [post H]; discriminate H].
    + destruct (ascii_dec a b) as [->|Hab].
      * rewrite IH. split; intros [post H]; exists post; congruence.
      * split; [discriminate | intros [post H]; congruence].
Qed.

Lemma Contains_unfold (s sub : string) :
  Contains s sub
  = if String.prefix sub s then true
    else match s with
         | EmptyString => false
         | String _ s' => Contains s' sub
         end.
Proof. destruct s; reflexivity. Qed.

(** [Contains] is the substring test. *)
Lemma Contains_spec (s sub : string) :
  Contains s sub = true <-> exists pre post, s = (pre ++ sub ++ post)%string.
Proof.
  induction s as [|a s IH]; rewrite Contains_unfold.
  - destruct (String.prefix sub EmptyString) eqn:P.
    + apply prefix_app in P. destruct P as [post P]. split; [|reflexivity].
      intros _. now exists EmptyString, post.
    + split; [discriminate|]. intros (pre & post & H).
      destruct pre; [|discriminate H]. simpl in H.
      assert (String.prefix sub EmptyString = true) by (apply prefix_app; eauto).
      congruence.
  - destruct (String.prefix sub (String a s)) eqn:P.
    + apply prefix_app in P. destruct P as [post P]. split; [|reflexivity].
      intros _. now exists EmptyString, post.
    + rewrite IH. split.
      * intros (pre & post & H). exists (String a pre), post. simpl. now rewrite H.
      * intros (pre & post & H). destruct pre as [|c pre].
        -- simpl in H.
           assert (String.prefix sub (String a s) = true)
             by (apply prefix_app; eauto).
           congruence.
        -- simpl in H. injection H as _ H. now exists pre, post.
Qed.

(** C7.  When creating the tables fails with an error whose text contains
    "already exists", [NewPGWriter] returns a writer and no error and starts
    the pipeline with [deferredIndexes = false]; when it fails with any
    other error, [NewPGWriter] returns that error, no writer, and starts
    nothing. *)
Theorem NewPGWriter_already_exists :
  forall (db : DB) (cacheSize : Z) (err : error),
    createTables db = Some err ->
    ((exists pre post, err = (pre ++ "already exists" ++ post)%string) ->
     NewPGWriter (inl db) cacheSize
     = (Some (mkPGWriter db), None,
        [GoBlockWorker false cacheSize; GoUTXOWriter])) /\
    (~ (exists pre post, err = (pre ++ "already exists" ++ post)%string) ->
     NewPGWriter (inl db) cacheSize = (None, Some err, [])).
Proof.
  intros db cacheSize err H. unfold NewPGWriter. rewrite H.
  destruct (Contains err "already exists") eqn:C; split; intros Hc.
  - reflexivity.
  - exfalso. apply Hc. now apply Contains_spec.
  - apply Contains_spec in Hc. congruence.
  - reflexivity.
Qed.

(** Instances of C7: the error Postgres reports for an existing relation,
    and a permission error. *)
Lemma NewPGWriter_already_exists_witness :
  let db1 := mkDB [] [] NoFault NoFault
               (Some "pq: relation blocks already exists"%string) in
  let db2 := mkDB [] [] NoFault NoFault
               (Some "pq: permission denied"%string) in
  NewPGWriter (inl db1) 1000
  = (Some (mkPGWriter db1), None, [GoBlockWorker false 1000; GoUTXOWriter]) /\
  NewPGWriter (inl db2) 1000 = (None, Some "pq: permission denied"%string, []).
Proof.
  intros db1 db2. split.
  - apply (NewPGWriter_already_exists db1 1000 _ eq_refl).
    exists "pq: relation blocks "%string, EmptyString. reflexivity.
  - apply (NewPGWriter_already_exists db2 1000 _ eq_refl).
    intros H. apply Contains_spec in H. discriminate H.
Defined.

(** ** The resume queries *)

Lemma top_by_nil_iff {A : Type} (key : A -> Z) (rows : list A) :
  top_by key rows = None <-> rows = [].
Proof.
  destruct rows as [|r rows]; simpl; [tauto|].
  split; [|discriminate].
  destruct (top_by key rows) as [r'|]; [destruct (key r <? key r')|]; discriminate.
Qed.

(** The row [ORDER BY key DESC LIMIT 1] returns is a row of the table, and
    no row has a greater key. *)
Lemma top_by_max {A : Type} (key : A -> Z) (rows : list A) (r : A) :
  top_by key rows = Some r ->
  In r rows /\ forall r', In r' rows -> key r' <= key r.
Proof.
  revert r; induction rows as [|x rows IH]; intros r; simpl; [discriminate|].
  destruct (top_by key rows) as [m|] eqn:E.
  - destruct (IH m eq_refl) as [Hin Hmax].
    destruct (key x <? key m) eqn:L; intros [= <-].
    + apply Z.ltb_lt in L. split; [now right|].
      intros r' [<-|H]; [lia | now apply Hmax].
    + apply Z.ltb_ge in L. split; [now left|].
      intros r' [<-|H]; [lia | specialize (Hmax r' H); lia].
  - apply top_by_nil_iff in E. subst rows. intros [= <-].
    split; [now left|]. intros r' [<-|[]]. lia.
Qed.



(** ** The TxIn writer *)

Section TxInWriter.

Variable others : nat -> txIdCache -> txIdCache.






End TxInWriter.


(** ** The coordinator: channels and loops *)

Lemma blockCh_app (a b : list Event) : blockCh (a ++ b) = blockCh a ++ blockCh b.
Proof.
  induction a as [|e a IH]; simpl; [reflexivity|].
  destruct e; simpl; now rewrite IH.
Qed.

Lemma txCh_app (a b : list Event) : txCh (a ++ b) = txCh a ++ txCh b.
Proof.
  induction a as [|e a IH]; simpl; [reflexivity|].
  destruct e; simpl; now rewrite IH.
Qed.

Lemma txInCh_app (a b : list Event) : txInCh (a ++ b) = txInCh a ++ txInCh b.
Proof.
  induction a as [|e a IH]; simpl; [reflexivity|].
  destruct e; simpl; now rewrite IH.
Qed.

Lemma txOutCh_app (a b : list Event) : txOutCh (a ++ b) = txOutCh a ++ txOutCh b.
Proof.
  induction a as [|e a IH]; simpl; [reflexivity|].
  destruct e; simpl; now rewrite IH.
Qed.

Lemma recs_app {A : Type} (a b : list (option A)) : recs (a ++ b) = recs a ++ recs b.
Proof.
  induction a as [|[x|] a IH]; simpl; [reflexivity| |]; now rewrite IH.
Qed.

Lemma nils_app {A : Type} (a b : list (option A)) : nils (a ++ b) = nils a + nils b.
Proof.
  induction a as [|[x|] a IH]; cbn [nils app]; [reflexivity| |]; rewrite IH; lia.
Qed.

(** Without a commit signal among the events, no channel carries one. *)
Lemma no_signal_nils (evs : list Event) :
  Forall (fun e => is_signal e = false) evs ->
  nils (blockCh evs) = 0 /\ nils (txCh evs) = 0 /\
  nils (txInCh evs) = 0 /\ nils (txOutCh evs) = 0.
Proof.
  induction 1 as [|e evs He _ IH]; [repeat split|].
  destruct IH as (I1 & I2 & I3 & I4).
  destruct e as [[?|]|[?|]|[?|]|[?|]|]; simpl in *;
    try discriminate He; repeat split; assumption.
Qed.

Lemma waitSync_no_signal (s : bool) :
  Forall (fun e => is_signal e = false) (waitSync s).
Proof. destruct s; repeat constructor. Qed.

Lemma waitSync_sync (s s' : bool) : Forall (sync_is s') (waitSync s).
Proof. destruct s; repeat constructor. Qed.

Lemma waitSync_channels (s : bool) :
  blockCh (waitSync s) = [] /\ txCh (waitSync s) = [] /\
  txInCh (waitSync s) = [] /\ txOutCh (waitSync s) = [].
Proof. destruct s; repeat split. Qed.

Lemma sendTxIns_facts (id : Z) (ins : list TxIn) :
  Forall (fun e => is_signal e = false) (sendTxIns id ins) /\
  (forall s, Forall (sync_is s) (sendTxIns id ins)) /\
  blockCh (sendTxIns id ins) = [] /\ txCh (sendTxIns id ins) = [].
Proof.
  unfold sendTxIns, enumerate. generalize 0 as i.
  induction ins as [|x ins IH]; intros i; simpl.
  - repeat split; constructor.
  - destruct (IH (i + 1)) as (I1 & I2 & I3 & I4).
    split; [|split; [|split]]; try assumption.
    + constructor; [reflexivity | exact I1].
    + intros s. constructor; [exact I | apply I2].
Qed.

Lemma sendTxOuts_facts (id : Z) (outs : list TxOut) :
  Forall (fun e => is_signal e = false) (sendTxOuts id outs) /\
  (forall s, Forall (sync_is s) (sendTxOuts id outs)) /\
  blockCh (sendTxOuts id outs) = [] /\ txCh (sendTxOuts id outs) = [].
Proof.
  unfold sendTxOuts, enumerate. generalize 0 as i.
  induction outs as [|x outs IH]; intros i; simpl.
  - repeat split; constructor.
  - destruct (IH (i + 1)) as (I1 & I2 & I3 & I4).
    split; [|split; [|split]]; try assumption.
    + constructor; [reflexivity | exact I1].
    + intros s. constructor; [exact I | apply I2].
Qed.

(** [processTx] spelled out: the new state, and the events, which are the
    tx record, the wait, and the inputs and outputs unless the cache
    returned another id than the one just minted. *)
Lemma processTx_unfold (syncCh : bool) (st : Coord) (p : Z * Tx) :
  let txid1 := incr64 (txid st) in
  let r := add (idCache st) (tx_Hash (snd p)) txid1
               (Z.of_nat (List.length (TxOuts (snd p)))) in
  fst (processTx syncCh st p)
  = mkCoord (bid st) txid1 (incr64 (txcnt st)) (snd r) /\
  snd (processTx syncCh st p)
  = (SendTx (Some (txRecOf syncCh st p (fst r))) :: waitSync syncCh)
      ++ (if fst r =? txid1
          then sendTxIns txid1 (TxIns (snd p)) ++ sendTxOuts txid1 (TxOuts (snd p))
          else []).
Proof.
  cbv zeta. unfold processTx, txRecOf.
  destruct (add (idCache st) (tx_Hash (snd p)) (incr64 (txid st))
                (Z.of_nat (List.length (TxOuts (snd p))))) as [recentId cache1].
  simpl fst; simpl snd.
  destruct (recentId =? incr64 (txid st)); simpl; split; try reflexivity.
  now rewrite app_nil_r.
Qed.

Lemma processTx_bid (syncCh : bool) (st : Coord) (p : Z * Tx) :
  bid (fst (processTx syncCh st p)) = bid st.
Proof. now rewrite (proj1 (processTx_unfold syncCh st p)). Qed.

Lemma processTx_txid (syncCh : bool) (st : Coord) (p : Z * Tx) :
  txid (fst (processTx syncCh st p)) = incr64 (txid st).
Proof. now rewrite (proj1 (processTx_unfold syncCh st p)). Qed.

Lemma processTx_events (syncCh : bool) (st : Coord) (p : Z * Tx) :
  let evs := snd (processTx syncCh st p) in
  Forall (fun e => is_signal e = false) evs /\
  Forall (sync_is syncCh) evs /\
  blockCh evs = [] /\
  exists recentId,
    recentId = fst (add (idCache st) (tx_Hash (snd p)) (incr64 (txid st))
                        (Z.of_nat (List.length (TxOuts (snd p))))) /\
    txCh evs = [Some (txRecOf syncCh st p recentId)].
Proof.
  cbv zeta. rewrite (proj2 (processTx_unfold syncCh st p)).
  set (r := add _ _ _ _).
  destruct (sendTxIns_facts (incr64 (txid st)) (TxIns (snd p))) as (A1 & A2 & A3 & A4).
  destruct (sendTxOuts_facts (incr64 (txid st)) (TxOuts (snd p))) as (B1 & B2 & B3 & B4).
  destruct (waitSync_channels syncCh) as (W1 & W2 & _ & _).
  assert (T : Forall (fun e => is_signal e = false)
                (if fst r =? incr64 (txid st)
                 then sendTxIns (incr64 (txid st)) (TxIns (snd p))
                      ++ sendTxOuts (incr64 (txid st)) (TxOuts (snd p))
                 else []) /\
              Forall (sync_is syncCh)
                (if fst r =? incr64 (txid st)
                 then sendTxIns (incr64 (txid st)) (TxIns (snd p))
                      ++ sendTxOuts (incr64 (txid st)) (TxOuts (snd p))
                 else []) /\
              blockCh (if fst r =? incr64 (txid st)
                 then sendTxIns (incr64 (txid st)) (TxIns (snd p))
                      ++ sendTxOuts (incr64 (txid st)) (TxOuts (snd p))
                 else []) = [] /\
              txCh (if fst r =? incr64 (txid st)
                 then sendTxIns (incr64 (txid st)) (TxIns (snd p))
                      ++ sendTxOuts (incr64 (txid st)) (TxOuts (snd p))
                 else []) = []).
  { destruct (fst r =? incr64 (txid st)).
    - rewrite blockCh_app, txCh_app, A3, A4, B3, B4.
      repeat split; try apply Forall_app; auto.
    - repeat split; constructor. }
  destruct T as (T1 & T2 & T3 & T4).
  repeat split.
  - apply Forall_app. split; [|exact T1].
    constructor; [reflexivity | apply waitSync_no_signal].
  - apply Forall_app. split; [|exact T2].
    constructor; [reflexivity | apply waitSync_sync].
  - rewrite blockCh_app, T3. simpl. now rewrite W1.
  - exists (fst r). split; [reflexivity|].
    rewrite txCh_app, T4. simpl. now rewrite W2.
Qed.

Lemma run_loop_cons {S A : Type} (body : S -> A -> S * list Event)
  (st : S) (x : A) (xs : list A) :
  fst (run_loop body st (x :: xs)) = fst (run_loop body (fst (body st x)) xs) /\
  snd (run_loop body st (x :: xs))
  = snd (body st x) ++ snd (run_loop body (fst (body st x)) xs).
Proof.
  simpl. destruct (body st x) as [st1 evs1]. cbn [fst snd].
  destruct (run_loop body st1 xs) as [st2 evs2]. split; reflexivity.
Qed.

Lemma length_enum_from {A : Type} (i : Z) (xs : list A) :
  List.length (enum_from i xs) = List.length xs.
Proof. revert i; induction xs as [|x xs IH]; intros i; simpl; auto. Qed.

(** The loop over the transactions of a block: the block id is untouched,
    one id is minted per transaction, and the events are tx, input and
    output records only. *)
Lemma txLoop_facts (syncCh : bool) (l : list (Z * Tx)) :
  forall st : Coord,
    let res := run_loop (processTx syncCh) st l in
    bid (fst res) = bid st /\
    Forall (fun e => is_signal e = false) (snd res) /\
    Forall (sync_is syncCh) (snd res) /\
    blockCh (snd res) = [] /\
    List.length (recs (txCh (snd res))) = List.length l /\
    (- 2 ^ 63 <= txid st ->
     txid st + Z.of_nat (List.length l) < 2 ^ 63 ->
     txid (fst res) = txid st + Z.of_nat (List.length l) /\
     minted_ok (txid st) (recs (txCh (snd res)))).
Proof.
  induction l as [|p l IH]; intros st.
  - simpl. repeat split; try constructor. lia.
  - cbv zeta. destruct (run_loop_cons (processTx syncCh) st p l) as [E1 E2].
    rewrite E1, E2. clear E1 E2.
    destruct (processTx_events syncCh st p) as (P1 & P2 & P3 & rid & Hrid & P4).
    specialize (IH (fst (processTx syncCh st p))). cbv zeta in IH.
    destruct IH as (I1 & I2 & I3 & I4 & I5 & I6).
    rewrite processTx_bid in I1. rewrite processTx_txid in I6.
    rewrite blockCh_app, txCh_app, recs_app, P3, P4, I4.
    split; [exact I1|]. split; [now apply Forall_app|].
    split; [now apply Forall_app|]. split; [reflexivity|].
    split; [simpl; now rewrite I5|].
    intros Hlo Hhi.
    change (List.length (p :: l)) with (S (List.length l)) in *.
    rewrite incr64_small in I6 by lia.
    destruct I6 as [I6 I7]; [lia | lia |].
    split; [rewrite I6; lia|].
    simpl. split; [|exact I7].
    rewrite Bool.negb_false_iff, Z.eqb_eq, incr64_small by lia. tauto.
Qed.

(** [processBlock] spelled out. *)
Lemma processBlock_unfold (deferredIndexes : bool) (st : Coord) (bi : BlockInfo) :
  let syncCh := negb deferredIndexes in
  let bid1 := incr64 (bid st) in
  let rec :=
    {| br_id := bid1; br_height := Height bi; br_block := bi_Block bi;
       br_hash := blk_Hash (bi_Block bi); br_orphan := false;
       br_status := Status bi; br_filen := FileN bi;
       br_filepos := FilePos bi; br_sync := syncCh |} in
  let res :=
    run_loop (processTx syncCh)
      (mkCoord bid1 (txid st) (txcnt st) (idCache st))
      (enumerate (Txs (bi_Block bi))) in
  fst (processBlock deferredIndexes st bi) = fst res /\
  snd (processBlock deferredIndexes st bi)
  = ((SendBlock (Some rec) :: waitSync syncCh) ++ snd res)
      ++ commitSignals deferredIndexes bid1.
Proof.
  cbv zeta. unfold processBlock.
  destruct (run_loop _ _ _) as [st2 evs2]. simpl.
  split; [reflexivity|]. now rewrite <- app_assoc.
Qed.

(** What a block contributes, commit signals apart: its block record and
    the records of its transactions. *)
Lemma processBlock_body (deferredIndexes : bool) (st : Coord) (bi : BlockInfo) :
  exists body : list Event,
    snd (processBlock deferredIndexes st bi)
    = body ++ commitSignals deferredIndexes (incr64 (bid st)) /\
    Forall (fun e => is_signal e = false) body /\
    Forall (sync_is (negb deferredIndexes)) body /\
    (exists rec, blockCh body = [Some rec] /\ br_id rec = incr64 (bid st)) /\
    List.length (recs (txCh body)) = List.length (Txs (bi_Block bi)) /\
    bid (fst (processBlock deferredIndexes st bi)) = incr64 (bid st) /\
    (- 2 ^ 63 <= txid st ->
     txid st + Z.of_nat (List.length (Txs (bi_Block bi))) < 2 ^ 63 ->
     txid (fst (processBlock deferredIndexes st bi))
     = txid st + Z.of_nat (List.length (Txs (bi_Block bi))) /\
     minted_ok (txid st) (recs (txCh body))).
Proof.
  destruct (processBlock_unfold deferredIndexes st bi) as [E1 E2].
  cbv zeta in E1, E2. rewrite E1, E2. clear E1 E2.
  set (st1 := mkCoord (incr64 (bid st)) (txid st) (txcnt st) (idCache st)).
  destruct (txLoop_facts (negb deferredIndexes)
              (enumerate (Txs (bi_Block bi))) st1)
    as (L1 & L2 & L3 & L4 & L5 & L6).
  unfold enumerate in *. rewrite length_enum_from in *.
  destruct (waitSync_channels (negb deferredIndexes)) as (W1 & W2 & _ & _).
  eexists. split; [reflexivity|].
  split; [|split; [|split; [|split; [|split]]]].
  - constructor; [reflexivity|]. apply Forall_app. split; [|exact L2].
    apply waitSync_no_signal.
  - constructor; [reflexivity|]. apply Forall_app. split; [|exact L3].
    apply waitSync_sync.
  - eexists. split.
    + cbn [blockCh app]. rewrite blockCh_app, W1, L4. reflexivity.
    + reflexivity.
  - cbn [txCh app]. rewrite txCh_app, W2. exact L5.
  - exact L1.
  - intros Hlo Hhi. cbn [txCh app]. rewrite txCh_app, W2.
    apply L6; assumption.
Qed.

(** ** Monotonic ids *)

Lemma minted_ok_app (R1 R2 : list txRec) :
  forall base,
    minted_ok base R1 ->
    minted_ok (base + Z.of_nat (List.length R1)) R2 ->
    minted_ok base (R1 ++ R2).
Proof.
  induction R1 as [|r R1 IH]; intros base H1 H2.
  - simpl in *. now rewrite Z.add_0_r in H2.
  - destruct H1 as [Hr H1]. split; [exact Hr|].
    apply IH; [exact H1|].
    change (List.length (r :: R1)) with (S (List.length R1)) in H2.
    now replace (base + 1 + Z.of_nat (List.length R1))
      with (base + Z.of_nat (S (List.length R1))) by lia.
Qed.

Lemma minted_ok_nth (R : list txRec) :
  forall base k r,
    minted_ok base R -> nth_error R k = Some r ->
    (tr_dupe r = false <-> tr_id r = base + 1 + Z.of_nat k).
Proof.
  induction R as [|x R IH]; intros base k r H Hk.
  - destruct k; discriminate Hk.
  - destruct H as [Hx H]. destruct k as [|k].
    + injection Hk as <-. rewrite Hx. simpl. lia.
    + rewrite (IH (base + 1) k r H Hk). lia.
Qed.

Lemma minted_ok_sorted (R : list txRec) :
  forall base,
    minted_ok base R ->
    StronglySorted Z.lt (map tr_id (fresh_recs R)) /\
    Forall (fun x => base < x) (map tr_id (fresh_recs R)).
Proof.
  induction R as [|r R IH]; intros base H.
  - split; constructor.
  - destruct H as [Hr H]. destruct (IH (base + 1) H) as [S1 F1].
    unfold fresh_recs in *. simpl. destruct (tr_dupe r); simpl.
    + split; [exact S1|]. eapply Forall_impl; [|exact F1]. simpl. lia.
    + rewrite (proj1 Hr eq_refl). split.
      * constructor; [exact S1 | exact F1].
      * constructor; [lia|]. eapply Forall_impl; [|exact F1]. simpl. lia.
Qed.

Lemma count_up_sorted (n : nat) :
  forall base,
    StronglySorted Z.lt (count_up base n) /\
    Forall (fun x => base < x) (count_up base n).
Proof.
  induction n as [|n IH]; intros base; simpl.
  - split; constructor.
  - destruct (IH (base + 1)) as [S1 F1]. split.
    + constructor; assumption.
    + constructor; [lia|]. eapply Forall_impl; [|exact F1]. simpl. lia.
Qed.

(** The main loop: every block mints the next block id and every
    transaction the next tx id. *)
Lemma mainLoop_ids (deferredIndexes : bool) (ch : list BlockInfo) :
  forall st : Coord,
    - 2 ^ 63 <= bid st ->
    bid st + Z.of_nat (List.length ch) < 2 ^ 63 ->
    - 2 ^ 63 <= txid st ->
    txid st + total_txs ch < 2 ^ 63 ->
    let res := mainLoop deferredIndexes st ch in
    bid (fst res) = bid st + Z.of_nat (List.length ch) /\
    txid (fst res) = txid st + total_txs ch /\
    map br_id (recs (blockCh (snd res))) = count_up (bid st) (List.length ch) /\
    minted_ok (txid st) (recs (txCh (snd res))) /\
    Z.of_nat (List.length (recs (txCh (snd res)))) = total_txs ch.
Proof.
  unfold mainLoop.
  induction ch as [|bi ch IH]; intros st Hb1 Hb2 Ht1 Ht2.
  - simpl. repeat split; lia.
  - cbv zeta.
    destruct (run_loop_cons (processBlock deferredIndexes) st bi ch) as [E1 E2].
    rewrite E1, E2. clear E1 E2.
    change (List.length (bi :: ch)) with (S (List.length ch)) in *.
    cbn [total_txs] in *.
    assert (Hn : 0 <= total_txs ch).
    { clear. induction ch; simpl; lia. }
    destruct (processBlock_body deferredIndexes st bi)
      as (body & Ebody & _ & _ & (rec & Brec & Hrec) & Hlen & Hbid & Htx).
    destruct Htx as [Htx Hmint]; [lia | lia |].
    rewrite incr64_small in Hbid, Hrec by lia.
    specialize (IH (fst (processBlock deferredIndexes st bi))).
    rewrite Hbid, Htx in IH.
    destruct IH as (I1 & I2 & I3 & I4 & I5); try lia.
    assert (Cs : recs (blockCh (commitSignals deferredIndexes (incr64 (bid st)))) = []
                 /\ recs (txCh (commitSignals deferredIndexes (incr64 (bid st)))) = []).
    { unfold commitSignals.
      destruct deferredIndexes; simpl;
        [destruct (Z.rem (incr64 (bid st)) 50 =? 0)|]; split; reflexivity. }
    destruct Cs as [Cs1 Cs2].
    rewrite Ebody, !blockCh_app, !txCh_app, !recs_app, Brec, Cs1, Cs2.
    cbn [recs app]. rewrite !app_nil_r.
    split; [lia|]. split; [lia|]. split; [|split].
    + cbn [map count_up]. rewrite Hrec, I3. reflexivity.
    + apply minted_ok_app; [exact Hmint|]. rewrite Hlen. exact I4.
    + rewrite length_app, Nat2Z.inj_add, Hlen, I5. reflexivity.
Qed.

(** C4.  The ids the coordinator assigns are strictly increasing in
    ingestion order, as long as the 64-bit counters do not overflow: the
    block records carry the ids [bid+1, bid+2, ...]; the id minted for
    the [k]-th tx record (counting from 0) is [txid+1+k], and the record
    carries it exactly when it is not flagged [dupe], so the ids of the
    records that are not flagged are strictly increasing.  Every
    transaction mints an id, a duplicate too, whose record does not carry
    it: the counter ends at [txid] plus the number of transactions. *)
Theorem ids_strictly_increasing :
  forall (deferredIndexes : bool) (st : Coord) (ch : list BlockInfo),
    - 2 ^ 63 <= bid st ->
    bid st + Z.of_nat (List.length ch) < 2 ^ 63 ->
    - 2 ^ 63 <= txid st ->
    txid st + total_txs ch < 2 ^ 63 ->
    let res := mainLoop deferredIndexes st ch in
    let B := recs (blockCh (snd res)) in
    let T := recs (txCh (snd res)) in
    map br_id B = count_up (bid st) (List.length ch) /\
    StronglySorted Z.lt (map br_id B) /\
    (forall k r, nth_error T k = Some r ->
                 (tr_dupe r = false <-> tr_id r = txid st + 1 + Z.of_nat k)) /\
    StronglySorted Z.lt (map tr_id (fresh_recs T)) /\
    Z.of_nat (List.length T) = total_txs ch /\
    txid (fst res) = txid st + total_txs ch /\
    bid (fst res) = bid st + Z.of_nat (List.length ch).
Proof.
  intros d st ch Hb1 Hb2 Ht1 Ht2. cbv zeta.
  destruct (mainLoop_ids d ch st Hb1 Hb2 Ht1 Ht2) as (I1 & I2 & I3 & I4 & I5).
  split; [exact I3|]. split; [rewrite I3; apply count_up_sorted|].
  split; [intros k r; now apply minted_ok_nth|].
  split; [now apply (minted_ok_sorted _ (txid st))|].
  auto.
Qed.

(** An instance of C4: three blocks, the second repeating a transaction of
    the first.  The repeated transaction mints id 2, which no record
    carries. *)
Lemma ids_strictly_increasing_witness :
  let res := mainLoop true (Sample.st0 10) [Sample.bi0; Sample.bi1; Sample.bi2] in
  map br_id (recs (blockCh (snd res))) = [1; 2; 3] /\
  map tr_id (recs (txCh (snd res))) = [1; 1; 3] /\
  map tr_dupe (recs (txCh (snd res))) = [false; true; false] /\
  StronglySorted Z.lt (map tr_id (fresh_recs (recs (txCh (snd res))))) /\
  txid (fst res) = 3.
Proof.
  intros res.
  assert (H1 : - 2 ^ 63 <= bid (Sample.st0 10)) by (vm_compute; discriminate).
  assert (H2 : bid (Sample.st0 10)
               + Z.of_nat (List.length [Sample.bi0; Sample.bi1; Sample.bi2])
               < 2 ^ 63) by reflexivity.
  assert (H3 : - 2 ^ 63 <= txid (Sample.st0 10)) by (vm_compute; discriminate).
  assert (H4 : txid (Sample.st0 10)
               + total_txs [Sample.bi0; Sample.bi1; Sample.bi2] < 2 ^ 63)
    by reflexivity.
  destruct (ids_strictly_increasing true (Sample.st0 10)
              [Sample.bi0; Sample.bi1; Sample.bi2] H1 H2 H3 H4)
    as (T1 & _ & _ & T4 & _ & T6 & _).
  split; [exact T1|]. split; [reflexivity|]. split; [reflexivity|].
  split; [exact T4 | exact T6].
Defined.

(** ** Commit signals *)

Lemma commitSignals_sync (id : Z) :
  commitSignals false id = [SendTxIn None; SendTxOut None].
Proof. reflexivity. Qed.

Lemma commitSignals_deferred (id : Z) :
  (Z.divide 50 id ->
   commitSignals true id
   = [SendBlock None; SendTx None; SendTxIn None; SendTxOut None]) /\
  (~ Z.divide 50 id -> commitSignals true id = []).
Proof.
  unfold commitSignals. simpl negb. cbv iota.
  destruct (Z.rem id 50 =? 0) eqn:E.
  - split; [reflexivity|]. intros H. exfalso. apply H.
    apply Z.eqb_eq in E. apply Z.rem_divide; [discriminate | exact E].
  - split; [|reflexivity]. intros H.
    apply Z.rem_divide in H; [|discriminate]. apply Z.eqb_neq in E. contradiction.
Qed.

(** The multiples of 50 among [b+1]: one more than among [b] exactly when
    [b+1] is one. *)
Lemma multiples_step (b : Z) :
  0 <= b ->
  (b + 1) / 50 - b / 50 = if Z.rem (b + 1) 50 =? 0 then 1 else 0.
Proof.
  intros Hb. rewrite Z.rem_mod_nonneg by lia.
  pose proof (Z.div_mod b 50 ltac:(lia)) as D1.
  pose proof (Z.mod_pos_bound b 50 ltac:(lia)) as B1.
  pose proof (Z.div_mod (b + 1) 50 ltac:(lia)) as D2.
  pose proof (Z.mod_pos_bound (b + 1) 50 ltac:(lia)) as B2.
  destruct ((b + 1) mod 50 =? 0) eqn:E.
  - apply Z.eqb_eq in E. lia.
  - apply Z.eqb_neq in E. lia.
Qed.

Lemma commitSignals_nils (deferredIndexes : bool) (id : Z) :
  let cs := commitSignals deferredIndexes id in
  let k := if Z.rem id 50 =? 0 then 1 else 0 in
  nils (blockCh cs) = (if deferredIndexes then k else 0) /\
  nils (txCh cs) = (if deferredIndexes then k else 0) /\
  nils (txInCh cs) = (if deferredIndexes then k else 1) /\
  nils (txOutCh cs) = (if deferredIndexes then k else 1).
Proof.
  unfold commitSignals.
  destruct deferredIndexes; simpl negb; cbv iota zeta;
    [destruct (Z.rem id 50 =? 0)|]; repeat split.
Qed.

(** The number of commit signals on each channel over a run. *)
Lemma mainLoop_nils (deferredIndexes : bool) (ch : list BlockInfo) :
  forall st : Coord,
    0 <= bid st ->
    bid st + Z.of_nat (List.length ch) < 2 ^ 63 ->
    let evs := snd (mainLoop deferredIndexes st ch) in
    let n := Z.of_nat (List.length ch) in
    let k := (bid st + n) / 50 - bid st / 50 in
    nils (blockCh evs) = (if deferredIndexes then k else 0) /\
    nils (txCh evs) = (if deferredIndexes then k else 0) /\
    nils (txInCh evs) = (if deferredIndexes then k else n) /\
    nils (txOutCh evs) = (if deferredIndexes then k else n).
Proof.
  unfold mainLoop.
  induction ch as [|bi ch IH]; intros st Hb1 Hb2.
  - cbv zeta. simpl. rewrite Z.add_0_r, Z.sub_diag.
    destruct deferredIndexes; repeat split.
  - cbv zeta.
    destruct (run_loop_cons (processBlock deferredIndexes) st bi ch) as [_ E2].
    rewrite E2. clear E2.
    change (List.length (bi :: ch)) with (S (List.length ch)) in *.
    destruct (processBlock_body deferredIndexes st bi)
      as (body & Ebody & Hsig & _ & _ & _ & Hbid & _).
    rewrite incr64_small in Hbid, Ebody by (rewrite pow2_63 in *; lia).
    specialize (IH (fst (processBlock deferredIndexes st bi))).
    rewrite Hbid in IH. cbv zeta in IH.
    destruct IH as (I1 & I2 & I3 & I4); try lia.
    destruct (no_signal_nils body Hsig) as (N1 & N2 & N3 & N4).
    destruct (commitSignals_nils deferredIndexes (bid st + 1)) as (C1 & C2 & C3 & C4).
    cbv zeta in C1, C2, C3, C4.
    pose proof (multiples_step (bid st) Hb1) as M.
    rewrite Ebody, !blockCh_app, !txCh_app, !txInCh_app, !txOutCh_app, !nils_app.
    rewrite N1, N2, N3, N4, C1, C2, C3, C4, I1, I2, I3, I4.
    replace (bid st + 1 + Z.of_nat (List.length ch))
      with (bid st + Z.of_nat (S (List.length ch))) by lia.
    destruct deferredIndexes; repeat split; lia.
Qed.

(** C6.  In synchronous mode ([deferredIndexes = false]) the events of
    every accepted block end with a nil on the txin and on the txout
    channel and hold no other nil, and every block and tx record carries
    the sync channel, so that its writer commits it at once.  In deferred
    mode the events of a block end with a nil on each of the four channels
    exactly when the block's id is a multiple of 50, and hold no other nil.
    Over a run of [n] blocks from an empty store, each of the four channels
    thus carries [n / 50] nils in deferred mode; in synchronous mode the
    txin and txout channels carry [n] and the block and tx channels
    none. *)
Theorem commit_signal_cadence :
  forall (st : Coord) (bi : BlockInfo),
    (exists body,
        snd (processBlock false st bi)
        = body ++ [SendTxIn None; SendTxOut None] /\
        Forall (fun e => is_signal e = false) body /\
        Forall (sync_is true) body) /\
    (exists body,
        Forall (fun e => is_signal e = false) body /\
        Forall (sync_is false) body /\
        (Z.divide 50 (incr64 (bid st)) ->
         snd (processBlock true st bi)
         = body ++ [SendBlock None; SendTx None; SendTxIn None; SendTxOut None]) /\
        (~ Z.divide 50 (incr64 (bid st)) ->
         snd (processBlock true st bi) = body)) /\
    (forall (ch : list BlockInfo) (db : DB) (cacheSize : Z),
        blocks db = [] -> txs db = [] ->
        blocks_fault db = NoFault -> txs_fault db = NoFault ->
        Z.of_nat (List.length ch) < 2 ^ 63 ->
        let n := Z.of_nat (List.length ch) in
        (exists res,
            pgBlockWorker ch db true cacheSize = Some res /\
            nils (blockCh (snd res)) = n / 50 /\
            nils (txCh (snd res)) = n / 50 /\
            nils (txInCh (snd res)) = n / 50 /\
            nils (txOutCh (snd res)) = n / 50) /\
        (exists res,
            pgBlockWorker ch db false cacheSize = Some res /\
            nils (blockCh (snd res)) = 0 /\
            nils (txCh (snd res)) = 0 /\
            nils (txInCh (snd res)) = n /\
            nils (txOutCh (snd res)) = n)).
Proof.
  intros st bi. split; [|split].
  - destruct (processBlock_body false st bi) as (body & E & H1 & H2 & _).
    exists body. rewrite E. repeat split; assumption.
  - destruct (processBlock_body true st bi) as (body & E & H1 & H2 & _).
    destruct (commitSignals_deferred (incr64 (bid st))) as [D1 D2].
    exists body. split; [exact H1|]. split; [exact H2|]. split; intros Hd.
    + now rewrite E, (D1 Hd).
    + now rewrite E, (D2 Hd), app_nil_r.
  - intros ch db cacheSize Hb Ht Fb Ft Hn. cbv zeta.
    assert (W : forall d, pgBlockWorker ch db d cacheSize
                          = Some (mainLoop d (mkCoord 0 0 0 (newTxIdCache cacheSize)) ch)).
    { intros d. unfold pgBlockWorker, getLastHashAndHeight, getLastTxId.
      rewrite Hb, Ht, Fb, Ft. reflexivity. }
    assert (H0 : 0 <= bid (mkCoord 0 0 0 (newTxIdCache cacheSize))) by (simpl; lia).
    assert (H1 : bid (mkCoord 0 0 0 (newTxIdCache cacheSize))
                 + Z.of_nat (List.length ch) < 2 ^ 63) by (simpl; lia).
    split; eexists; (split; [apply W|]).
    + destruct (mainLoop_nils true ch _ H0 H1) as (N1 & N2 & N3 & N4).
      cbv zeta in *. simpl bid in *.
      rewrite N1, N2, N3, N4. change (0 / 50) with 0.
      rewrite Z.add_0_l, Z.sub_0_r. repeat split.
    + destruct (mainLoop_nils false ch _ H0 H1) as (N1 & N2 & N3 & N4).
      repeat split; assumption.
Qed.

(** An instance of C6: the block that receives id 50, and a run of 50
    blocks from an empty store. *)
Lemma commit_signal_cadence_witness :
  (exists body,
      snd (processBlock true (mkCoord 49 0 0 (newTxIdCache 10)) Sample.bi2)
      = body ++ [SendBlock None; SendTx None; SendTxIn None; SendTxOut None]) /\
  (exists res,
      pgBlockWorker (repeat Sample.bi2 50) Sample.emptyDB true 10 = Some res /\
      nils (blockCh (snd res)) = 1 /\ nils (txOutCh (snd res)) = 1) /\
  (exists res,
      pgBlockWorker (repeat Sample.bi2 50) Sample.emptyDB false 10 = Some res /\
      nils (txCh (snd res)) = 0 /\ nils (txInCh (snd res)) = 50).
Proof.
  destruct (commit_signal_cadence (mkCoord 49 0 0 (newTxIdCache 10)) Sample.bi2)
    as (_ & (body & _ & _ & D & _) & R).
  split; [|split].
  - exists body. apply D. exists 1. reflexivity.
  - destruct (R (repeat Sample.bi2 50) Sample.emptyDB 10
                eq_refl eq_refl eq_refl eq_refl eq_refl)
      as [(res & E & N1 & _ & _ & N4) _].
    exists res. split; [exact E|]. split; [exact N1 | exact N4].
  - destruct (R (repeat Sample.bi2 50) Sample.emptyDB 10
                eq_refl eq_refl eq_refl eq_refl eq_refl)
      as [_ (res & E & _ & N2 & N3 & _)].
    exists res. split; [exact E|]. split; [exact N2 | exact N3].
Defined.

(** ** Skip mode *)

Lemma bytes_eqb_eq (a b : list byte) : bytes_eqb a b = true <-> a = b.
Proof.
  revert b; induction a as [|x a IH]; destruct b as [|y b]; simpl;
    try (split; [discriminate | congruence]); try tauto.
  rewrite andb_true_iff, IH.
  split.
  - intros [H1 H2]. apply Byte.byte_dec_bl in H1. congruence.
  - intros H. injection H as -> ->. split; [apply Byte.byte_dec_lb|]; reflexivity.
Qed.

Lemma bytes_eqb_refl (a : list byte) : bytes_eqb a a = true.
Proof. now apply bytes_eqb_eq. Qed.

Lemma bytes_eqb_neq (a b : list byte) : bytes_eqb a b = false <-> a <> b.
Proof.
  destruct (bytes_eqb a b) eqn:E.
  - apply bytes_eqb_eq in E. split; [discriminate | contradiction].
  - split; [|reflexivity]. intros _ H. apply bytes_eqb_eq in H. congruence.
Qed.

(** The skip loop drops the blocks before the first one with the stored
    hash, and that one too. *)
Lemma skipLoop_found (bhash : list byte) (pre : list BlockInfo) :
  forall (b : BlockInfo) (post : list BlockInfo) (skip : Z),
    (forall x, In x pre -> blk_Hash (bi_Block x) <> bhash) ->
    blk_Hash (bi_Block b) = bhash ->
    fst (skipLoop bhash (pre ++ b :: post) skip) = post.
Proof.
  induction pre as [|x pre IH]; intros b post skip Hpre Hb; simpl.
  - rewrite Hb, bytes_eqb_refl. reflexivity.
  - assert (E : bytes_eqb bhash (blk_Hash (bi_Block x)) = false).
    { apply bytes_eqb_neq. intros H. apply (Hpre x); [now left | now symmetry]. }
    rewrite E. apply IH; [|exact Hb]. intros y Hy. apply Hpre. now right.
Qed.

(** Without such a block the skip loop drains the channel. *)
Lemma skipLoop_drained (bhash : list byte) (ch : list BlockInfo) :
  forall skip : Z,
    (forall x, In x ch -> blk_Hash (bi_Block x) <> bhash) ->
    fst (skipLoop bhash ch skip) = [].
Proof.
  induction ch as [|x ch IH]; intros skip Hch; simpl; [reflexivity|].
  assert (E : bytes_eqb bhash (blk_Hash (bi_Block x)) = false).
  { apply bytes_eqb_neq. intros H. apply (Hch x); [now left | now symmetry]. }
  rewrite E. apply IH. intros y Hy. apply Hch. now right.
Qed.

(** C5.  When the resume query returns a non-empty last hash, the blocks
    of the input up to and including the first one whose hash is the stored
    last hash are consumed without effect: the worker ends in the state,
    and with the events, of the main loop run from the resume state on the
    blocks that follow.  No id is assigned to a skipped block and no record
    is sent for it.  When no block has the stored hash, the whole input is
    consumed and nothing is sent. *)
Theorem skip_mode_discards_through_last_hash :
  forall (db : DB) (ch : list BlockInfo) (deferredIndexes : bool)
         (cacheSize bid0 height0 txid0 : Z) (bhash : list byte),
    getLastHashAndHeight db = (bid0, height0, bhash, None) ->
    getLastTxId db = (txid0, None) ->
    bhash <> [] ->
    let st := mkCoord bid0 txid0 0 (newTxIdCache cacheSize) in
    (forall pre b post,
        ch = pre ++ b :: post ->
        (forall x, In x pre -> blk_Hash (bi_Block x) <> bhash) ->
        blk_Hash (bi_Block b) = bhash ->
        pgBlockWorker ch db deferredIndexes cacheSize
        = Some (mainLoop deferredIndexes st post)) /\
    ((forall x, In x ch -> blk_Hash (bi_Block x) <> bhash) ->
     pgBlockWorker ch db deferredIndexes cacheSize = Some (st, [])).
Proof.
  intros db ch d cacheSize bid0 height0 txid0 bhash Hq Ht Hne. cbv zeta.
  assert (L : (0 <? Z.of_nat (List.length bhash)) = true).
  { destruct bhash; [contradiction | reflexivity]. }
  unfold pgBlockWorker. rewrite Hq, Ht, L. split.
  - intros pre b post -> Hpre Hb. now rewrite skipLoop_found.
  - intros Hch. now rewrite skipLoop_drained.
Qed.

(** An instance of C5: the store holds the first sample block; the input
    starts over from it. *)
Lemma skip_mode_discards_through_last_hash_witness :
  let row := mkBlockRow 1 0 (Sample.h32 xa0) 1 [] [] 0 0 0 false 0 0 8 in
  let db := mkDB [row] [mkTxRow 1 (Sample.h32 x01) 1 0] NoFault NoFault None in
  pgBlockWorker [Sample.bi0; Sample.bi1; Sample.bi2] db true 10
  = Some (mainLoop true (mkCoord 1 1 0 (newTxIdCache 10)) [Sample.bi1; Sample.bi2]) /\
  map br_id (recs (blockCh (snd (mainLoop true (mkCoord 1 1 0 (newTxIdCache 10))
                                   [Sample.bi1; Sample.bi2])))) = [2; 3].
Proof.
  intros row db. split; [|reflexivity].
  assert (Hne : Sample.h32 xa0 <> []) by discriminate.
  apply (proj1 (skip_mode_discards_through_last_hash db
                  [Sample.bi0; Sample.bi1; Sample.bi2] true 10 1 0 1
                  (Sample.h32 xa0) eq_refl eq_refl Hne)
           [] Sample.bi0 [Sample.bi1; Sample.bi2] eq_refl).
  - intros x [].
  - reflexivity.
Defined.

(** ** Duplicate transactions *)

(** The Tx writer: the rows of [txs] are those of the records not flagged
    [dupe], the rows of [block_txs] those of all records. *)
Lemma pgTxWriter_loop_rows (c : list (option txRec)) :
  forall (s : Stream TxRow) (bs : Stream BlockTxRow),
    let res := pgTxWriter_loop c s bs in
    committed (fst res)
    = committed s ++ pending s ++ map txRow (fresh_recs (recs c)) /\
    committed (snd res)
    = committed bs ++ pending bs ++ map blockTxRow (recs c).
Proof.
  induction c as [|[tr|] c IH]; intros s bs; cbv zeta.
  - simpl. now rewrite !app_nil_r.
  - cbn [pgTxWriter_loop].
    destruct (pgTxWriter_step tr s bs) as [s1 bs1] eqn:E.
    destruct (IH s1 bs1) as [I1 I2]. rewrite I1, I2. clear I1 I2 IH.
    unfold pgTxWriter_step, fresh_recs in *. cbn [recs filter map].
    destruct (tr_dupe tr), (tr_sync tr); simpl in E; injection E as <- <-;
      simpl; rewrite <- ?app_assoc; simpl; rewrite ?app_nil_r; split; reflexivity.
  - cbn [pgTxWriter_loop recs].
    destruct (IH (commit s) (commit bs)) as [I1 I2]. rewrite I1, I2.
    simpl. now rewrite <- !app_assoc.
Qed.

Lemma pgTxWriter_rows (c : list (option txRec)) :
  pgTxWriter c [] []
  = (map txRow (fresh_recs (recs c)), map blockTxRow (recs c)).
Proof.
  unfold pgTxWriter.
  destruct (pgTxWriter_loop_rows c (begin []) (begin [])) as [E1 E2].
  destruct (pgTxWriter_loop c (begin []) (begin [])) as [s bs].
  simpl in E1, E2. now rewrite E1, E2.
Qed.










(** The tx records of a block are those of the loop over its
    transactions. *)
Lemma processBlock_txrecs (deferredIndexes : bool) (st : Coord) (bi : BlockInfo) :
  let st1 := mkCoord (incr64 (bid st)) (txid st) (txcnt st) (idCache st) in
  let res := run_loop (processTx (negb deferredIndexes)) st1
               (enumerate (Txs (bi_Block bi))) in
  fst (processBlock deferredIndexes st bi) = fst res /\
  recs (txCh (snd (processBlock deferredIndexes st bi))) = recs (txCh (snd res)).
Proof.
  destruct (processBlock_unfold deferredIndexes st bi) as [E1 E2].
  cbv zeta in *. rewrite E1, E2. split; [reflexivity|].
  destruct (waitSync_channels (negb deferredIndexes)) as (_ & W2 & _ & _).
  rewrite !txCh_app, !recs_app. cbn [txCh app]. rewrite W2.
  unfold commitSignals.
  destruct deferredIndexes; simpl negb; cbv iota;
    [destruct (Z.rem (incr64 (bid st)) 50 =? 0)|]; simpl; now rewrite app_nil_r.
Qed.










(** The liveness condition of C2 is needed: with a cache of one entry the
    coinbase of the first block is evicted before it is sighted again, and
    the writer is sent a second row for its hash. *)
Example evicted_duplicate_inserted_again :
  let res := mainLoop true (Sample.st0 1) [Sample.bi0; Sample.biB; Sample.biA] in
  map tr_dupe (recs (txCh (snd res))) = [false; false; false] /\
  map t_id (rows_for (Sample.h32 x01) (fst (pgTxWriter (txCh (snd res)) [] [])))
  = [1; 3].
Proof. split; reflexivity. Qed.

(** ** Resume state *)

(** The tx side of the resume state: [getLastTxId] returns the greatest id
    of [txs], or 0 for an empty table. *)
Lemma getLastTxId_greatest (db : DB) :
  txs_fault db = NoFault ->
  (txs db = [] -> getLastTxId db = (0, None)) /\
  (txs db <> [] ->
   exists id, getLastTxId db = (id, None) /\
              In id (map t_id (txs db)) /\
              forall r, In r (txs db) -> t_id r <= id).
Proof.
  intros F. unfold getLastTxId. rewrite F. split.
  - intros ->. reflexivity.
  - intros Hne. destruct (top_by t_id (txs db)) as [r|] eqn:E.
    + destruct (top_by_max _ _ _ E) as [Hin Hmax].
      exists (t_id r). split; [reflexivity|]. split; [now apply in_map | exact Hmax].
    + apply top_by_nil_iff in E. contradiction.
Qed.

(** C1, on a store that holds a side branch.  The store is the one the
    writers leave after loading the main branch up to height 2 and then a
    side block at height 1: ids 1 to 4, heights 0, 1, 2, 1.  The resume
    query returns id 3, the id of the block of greatest height, while the
    greatest id is 4.  On resume the first accepted block receives id 4,
    which a stored block already has, not id 5. *)
Theorem resume_block_id_from_greatest_height :
  let db := Sample.storeAfter in
  let ch := [Sample.bi0; Sample.bi1; Sample.bi2; Sample.bi1'; Sample.bi3] in
  map b_id (blocks db) = [1; 2; 3; 4] /\
  map b_height (blocks db) = [0; 1; 2; 1] /\
  getLastHashAndHeight db = (3, 2, Sample.h32 xa2, None) /\
  option_map b_id (top_by b_id (blocks db)) = Some 4 /\
  getLastTxId db = (3, None) /\
  option_map (fun res => map br_id (recs (blockCh (snd res))))
             (pgBlockWorker ch db false 10) = Some [4; 5] /\
  option_map (fun res => map br_hash (recs (blockCh (snd res))))
             (pgBlockWorker ch db false 10)
  = Some [Sample.h32 xb1; Sample.h32 xa3].
Proof. repeat split. Qed.

(** * Part III: further properties of the writer *)

(** ** What the writers store *)

Lemma pgBlockWriter_loop_rows (c : list (option blockRec)) :
  forall s : Stream BlockRow,
    committed (pgBlockWriter_loop c s)
    = committed s ++ pending s ++ map blockRow (recs c) /\
    pending (pgBlockWriter_loop c s) = [].
Proof.
  induction c as [|[br|] c IH]; intros s.
  - simpl. now rewrite app_nil_r.
  - cbn [pgBlockWriter_loop recs map].
    destruct (br_sync br);
      destruct (IH (commit (exec s (blockRow br)))) as [I1 I2];
      destruct (IH (exec s (blockRow br))) as [J1 J2].
    + rewrite I1, I2. simpl. rewrite <- !app_assoc. split; reflexivity.
    + rewrite J1, J2. simpl. rewrite <- !app_assoc. split; reflexivity.
  - cbn [pgBlockWriter_loop recs].
    destruct (IH (commit s)) as [I1 I2]. rewrite I1, I2. simpl.
    rewrite <- !app_assoc. split; reflexivity.
Qed.



Lemma pgTxOutWriter_loop_rows (c : list (option txOutRec)) :
  forall s : Stream TxOutRow,
    committed (pgTxOutWriter_loop c s)
    = committed s ++ pending s ++ map txOutRow (recs c).
Proof.
  induction c as [|[tr|] c IH]; intros s.
  - simpl. now rewrite app_nil_r.
  - cbn [pgTxOutWriter_loop recs map]. rewrite IH. simpl.
    now rewrite <- !app_assoc.
  - cbn [pgTxOutWriter_loop recs]. rewrite IH. simpl.
    now rewrite <- !app_assoc.
Qed.


Lemma pgTxInWriter_loop_forall2 (others : nat -> txIdCache -> txIdCache)
  (c : list (option txInRec)) :
  forall (k : nat) (cache : txIdCache) (s : Stream TxInRow),
  exists rows,
    committed (fst (pgTxInWriter_loop others k c cache s))
    = committed s ++ pending s ++ rows /\
    Forall2 (fun tr r => exists cache', row_of r tr cache') (recs c) rows.
Proof.
  induction c as [|[tr|] c IH]; intros k cache s.
  - exists []. simpl. rewrite app_nil_r. split; [reflexivity | constructor].
  - cbn [pgTxInWriter_loop recs].
    destruct (txInRow (others k cache) tr) as [row cache1] eqn:E.
    destruct (IH (S k) cache1 (exec s row)) as (rows & I1 & I2).
    exists (row :: rows). rewrite I1. simpl. rewrite <- !app_assoc.
    split; [reflexivity|]. constructor; [|exact I2].
    exists (others k cache). unfold row_of. now rewrite E.
  - cbn [pgTxInWriter_loop recs].
    destruct (IH k cache (commit s)) as (rows & I1 & I2).
    exists rows. rewrite I1. simpl. rewrite <- !app_assoc. split; trivial.
Qed.





(** ** What the coordinator sends *)

(** A property of event lists that holds of the empty list, of what the
    body does in any state, and is kept by concatenation, holds of the
    whole loop. *)
Lemma run_loop_all {S A : Type} (P : list Event -> Prop)
  (body : S -> A -> S * list Event) :
  P [] ->
  (forall a b, P a -> P b -> P (a ++ b)) ->
  (forall st x, P (snd (body st x))) ->
  forall xs st, P (snd (run_loop body st xs)).
Proof.
  intros Hnil Happ Hbody. induction xs as [|x xs IH]; intros st.
  - exact Hnil.
  - rewrite (proj2 (run_loop_cons body st x xs)). apply Happ; [apply Hbody | apply IH].
Qed.

Lemma fresh_recs_app (a b : list txRec) :
  fresh_recs (a ++ b) = fresh_recs a ++ fresh_recs b.
Proof. apply filter_app. Qed.

Lemma sendTxIns_channels (id : Z) (ins : list TxIn) :
  txInCh (sendTxIns id ins)
  = map (fun p => Some (mkTxInRec id (fst p) (snd p))) (enumerate ins) /\
  txOutCh (sendTxIns id ins) = [].
Proof.
  unfold sendTxIns, enumerate. generalize 0 as i.
  induction ins as [|x ins IH]; intros i; simpl; [split; reflexivity|].
  destruct (IH (i + 1)) as [I1 I2]. now rewrite I1, I2.
Qed.

Lemma sendTxOuts_channels (id : Z) (outs : list TxOut) :
  txOutCh (sendTxOuts id outs)
  = map (fun p => Some (mkTxOutRec id (fst p) (snd p))) (enumerate outs) /\
  txInCh (sendTxOuts id outs) = [].
Proof.
  unfold sendTxOuts, enumerate. generalize 0 as i.
  induction outs as [|x outs IH]; intros i; simpl; [split; reflexivity|].
  destruct (IH (i + 1)) as [I1 I2]. now rewrite I1, I2.
Qed.

Lemma recs_map_Some {A B : Type} (f : A -> B) (l : list A) :
  recs (map (fun x => Some (f x)) l) = map f l.
Proof. induction l as [|x l IH]; simpl; [reflexivity | now rewrite IH]. Qed.

Lemma children_match_app (a b : list Event) :
  children_match a -> children_match b -> children_match (a ++ b).
Proof.
  unfold children_match. intros [A1 A2] [B1 B2].
  rewrite txInCh_app, txOutCh_app, txCh_app, !recs_app, fresh_recs_app,
    !flat_map_app, A1, A2, B1, B2.
  split; reflexivity.
Qed.

Lemma processTx_children (syncCh : bool) (st : Coord) (p : Z * Tx) :
  children_match (snd (processTx syncCh st p)).
Proof.
  rewrite (proj2 (processTx_unfold syncCh st p)).
  set (r := add _ _ _ _).
  destruct (waitSync_channels syncCh) as (_ & W2 & W3 & W4).
  destruct (sendTxIns_facts (incr64 (txid st)) (TxIns (snd p))) as (_ & _ & _ & A4).
  destruct (sendTxOuts_facts (incr64 (txid st)) (TxOuts (snd p))) as (_ & _ & _ & B4).
  destruct (sendTxIns_channels (incr64 (txid st)) (TxIns (snd p))) as [A5 A6].
  destruct (sendTxOuts_channels (incr64 (txid st)) (TxOuts (snd p))) as [B5 B6].
  unfold children_match.
  rewrite !txInCh_app, !txOutCh_app, !txCh_app.
  cbn [txInCh txOutCh txCh]. rewrite W2, W3, W4. cbn [app].
  unfold fresh_recs. cbn [recs filter txRecOf tr_dupe].
  destruct (fst r =? incr64 (txid st)) eqn:E.
  - apply Z.eqb_eq in E. cbn [negb].
    rewrite txInCh_app, txOutCh_app, txCh_app, A4, B4, A5, A6, B5, B6.
    cbn [app recs filter flat_map]. rewrite !app_nil_r, !recs_map_Some.
    unfold txInRecsOf, txOutRecsOf. cbn [tr_id tr_tx]. rewrite E.
    split; reflexivity.
  - cbn [negb]. split; reflexivity.
Qed.

Lemma commitSignals_recs (deferredIndexes : bool) (id : Z) :
  let cs := commitSignals deferredIndexes id in
  recs (blockCh cs) = [] /\ recs (txCh cs) = [] /\
  recs (txInCh cs) = [] /\ recs (txOutCh cs) = [].
Proof.
  unfold commitSignals.
  destruct deferredIndexes; simpl negb; cbv iota zeta;
    [destruct (Z.rem id 50 =? 0)|]; repeat split.
Qed.

Lemma processBlock_children (deferredIndexes : bool) (st : Coord) (bi : BlockInfo) :
  children_match (snd (processBlock deferredIndexes st bi)).
Proof.
  rewrite (proj2 (processBlock_unfold deferredIndexes st bi)).
  apply children_match_app; [apply children_match_app|].
  - destruct (waitSync_channels (negb deferredIndexes)) as (_ & W2 & W3 & W4).
    unfold children_match. cbn [txInCh txOutCh txCh]. rewrite W2, W3, W4.
    split; reflexivity.
  - apply run_loop_all.
    + split; reflexivity.
    + apply children_match_app.
    + apply processTx_children.
  - destruct (commitSignals_recs deferredIndexes (incr64 (bid st)))
      as (_ & C2 & C3 & C4).
    unfold children_match. cbv zeta in *. rewrite C2, C3, C4. split; reflexivity.
Qed.


Lemma txLoop_positions (syncCh : bool) (l : list Tx) :
  forall (i : Z) (st : Coord),
    map (fun r => (tr_blockId r, tr_n r, tr_tx r))
        (recs (txCh (snd (run_loop (processTx syncCh) st (enum_from i l)))))
    = map (fun p => (bid st, fst p, snd p)) (enum_from i l) /\
    Forall (fun r => tr_hash r = tx_Hash (tr_tx r))
           (recs (txCh (snd (run_loop (processTx syncCh) st (enum_from i l))))).
Proof.
  induction l as [|x l IH]; intros i st; [split; [reflexivity | constructor]|].
  cbn [enum_from].
  rewrite (proj2 (run_loop_cons (processTx syncCh) st (i, x) (enum_from (i + 1) l))).
  destruct (processTx_events syncCh st (i, x)) as (_ & _ & _ & rid & _ & P4).
  rewrite txCh_app, recs_app, P4. cbn [recs app map].
  destruct (IH (i + 1) (fst (processTx syncCh st (i, x)))) as [I1 I2].
  rewrite processTx_bid in I1. rewrite I1.
  split; [reflexivity|]. constructor; [reflexivity | exact I2].
Qed.

Lemma mainLoop_positions (deferredIndexes : bool) (ch : list BlockInfo) :
  forall st : Coord,
    - 2 ^ 63 <= bid st ->
    bid st + Z.of_nat (List.length ch) < 2 ^ 63 ->
    let T := recs (txCh (snd (mainLoop deferredIndexes st ch))) in
    map (fun r => (tr_blockId r, tr_n r, tr_tx r)) T
    = expected_positions (bid st) ch /\
    Forall (fun r => tr_hash r = tx_Hash (tr_tx r)) T.
Proof.
  unfold mainLoop.
  induction ch as [|bi ch IH]; intros st Hlo Hhi; cbv zeta;
    [split; [reflexivity | constructor]|].
  change (List.length (bi :: ch)) with (S (List.length ch)) in Hhi.
  rewrite (proj2 (run_loop_cons (processBlock deferredIndexes) st bi ch)).
  rewrite txCh_app, recs_app, map_app.
  destruct (processBlock_txrecs deferredIndexes st bi) as [_ B2].
  cbv zeta in B2. rewrite B2. unfold enumerate.
  destruct (txLoop_positions (negb deferredIndexes) (Txs (bi_Block bi)) 0
              (mkCoord (incr64 (bid st)) (txid st) (txcnt st) (idCache st)))
    as [P1 P2].
  rewrite P1. simpl bid.
  destruct (processBlock_body deferredIndexes st bi)
    as (_ & _ & _ & _ & _ & _ & Hbid & _).
  assert (Ei : incr64 (bid st) = bid st + 1) by (apply incr64_small; lia).
  rewrite Ei in *.
  destruct (IH (fst (processBlock deferredIndexes st bi))) as [I1 I2];
    try (rewrite Hbid; lia).
  cbv zeta in I1, I2. rewrite I1, Hbid. split; [reflexivity|].
  apply Forall_app. split; assumption.
Qed.






(** ** Order of sending and the sync handshake *)

Lemma parents_first_mono (evs : list Event) :
  forall B T B' T',
    incl B B' -> incl T T' ->
    parents_first B T evs -> parents_first B' T' evs.
Proof.
  induction evs as [|e evs IH]; intros B T B' T' HB HT H; [exact I|].
  destruct e as [[r|]|[r|]|[r|]|[r|]|]; cbn [parents_first] in *;
    try (eapply IH; eassumption).
  - eapply IH; [| |exact H]; [|exact HT].
    intros x [<-|Hx]; [now left | right; now apply HB].
  - destruct H as [H1 H2]. split; [now apply HB|].
    eapply IH; [exact HB| |exact H2].
    destruct (tr_dupe r); [exact HT|].
    intros x [<-|Hx]; [now left | right; now apply HT].
  - destruct H as [H1 H2]. split; [now apply HT|]. eapply IH; eassumption.
  - destruct H as [H1 H2]. split; [now apply HT|]. eapply IH; eassumption.
Qed.

Lemma parents_first_app (a : list Event) :
  forall B T b,
    parents_first B T a ->
    parents_first (map br_id (recs (blockCh a)) ++ B)
                  (map tr_id (fresh_recs (recs (txCh a))) ++ T) b ->
    parents_first B T (a ++ b).
Proof.
  induction a as [|e a IH]; intros B T b Ha Hb; [exact Hb|].
  destruct e as [[r|]|[r|]|[r|]|[r|]|]; cbn [parents_first app] in *;
    cbn [blockCh txCh recs map fresh_recs filter] in Hb;
    try (apply IH; assumption).
  - apply IH; [exact Ha|]. eapply parents_first_mono; [| |exact Hb].
    + intros x Hx. rewrite in_app_iff in *. simpl in *. tauto.
    + apply incl_refl.
  - destruct Ha as [H1 H2]. split; [exact H1|]. apply IH; [exact H2|].
    eapply parents_first_mono; [| |exact Hb]; [apply incl_refl|].
    unfold fresh_recs. cbn [filter].
    destruct (tr_dupe r); cbn [negb]; [apply incl_refl|].
    intros x Hx. cbn [map] in Hx. rewrite in_app_iff in *. simpl in *. tauto.
  - destruct Ha as [H1 H2]. split; [exact H1|]. now apply IH.
  - destruct Ha as [H1 H2]. split; [exact H1|]. now apply IH.
Qed.

Lemma sendTxIns_parents (id : Z) (ins : list TxIn) (B T : list Z) :
  In id T -> parents_first B T (sendTxIns id ins).
Proof.
  intros H. unfold sendTxIns, enumerate. generalize 0 as i.
  induction ins as [|x ins IH]; intros i; simpl; [exact I|].
  split; [exact H | apply IH].
Qed.

Lemma sendTxOuts_parents (id : Z) (outs : list TxOut) (B T : list Z) :
  In id T -> parents_first B T (sendTxOuts id outs).
Proof.
  intros H. unfold sendTxOuts, enumerate. generalize 0 as i.
  induction outs as [|x outs IH]; intros i; simpl; [exact I|].
  split; [exact H | apply IH].
Qed.

Lemma processTx_parents (syncCh : bool) (st : Coord) (p : Z * Tx) (B T : list Z) :
  In (bid st) B -> parents_first B T (snd (processTx syncCh st p)).
Proof.
  intros HB. rewrite (proj2 (processTx_unfold syncCh st p)).
  set (r := add _ _ _ _). cbn [app parents_first txRecOf tr_blockId tr_dupe tr_id].
  split; [exact HB|].
  assert (W : forall B' T' evs,
             parents_first B' T' evs -> parents_first B' T' (waitSync syncCh ++ evs)).
  { intros B' T' evs H. destruct syncCh; exact H. }
  apply W. destruct (fst r =? incr64 (txid st)) eqn:E; cbn [negb]; [|exact I].
  apply Z.eqb_eq in E. rewrite E.
  apply parents_first_app.
  - apply sendTxIns_parents. now left.
  - apply sendTxOuts_parents. apply in_or_app. right. now left.
Qed.

Lemma txLoop_parents (syncCh : bool) (l : list (Z * Tx)) :
  forall (st : Coord) (B T : list Z),
    In (bid st) B -> parents_first B T (snd (run_loop (processTx syncCh) st l)).
Proof.
  induction l as [|p l IH]; intros st B T HB; [exact I|].
  rewrite (proj2 (run_loop_cons (processTx syncCh) st p l)).
  apply parents_first_app; [now apply processTx_parents|].
  apply IH. rewrite processTx_bid. apply in_or_app. now right.
Qed.

Lemma commitSignals_parents (deferredIndexes : bool) (id : Z) (B T : list Z) :
  parents_first B T (commitSignals deferredIndexes id).
Proof.
  unfold commitSignals.
  destruct deferredIndexes; simpl negb; cbv iota;
    [destruct (Z.rem id 50 =? 0)|]; exact I.
Qed.

Lemma processBlock_parents (deferredIndexes : bool) (st : Coord) (bi : BlockInfo)
  (B T : list Z) :
  parents_first B T (snd (processBlock deferredIndexes st bi)).
Proof.
  rewrite (proj2 (processBlock_unfold deferredIndexes st bi)).
  apply parents_first_app; [|apply commitSignals_parents].
  cbn [app parents_first br_id].
  assert (H : parents_first (incr64 (bid st) :: B) T
                (snd (run_loop (processTx (negb deferredIndexes))
                        (mkCoord (incr64 (bid st)) (txid st) (txcnt st) (idCache st))
                        (enumerate (Txs (bi_Block bi)))))).
  { apply txLoop_parents. now left. }
  destruct (negb deferredIndexes); exact H.
Qed.

Lemma mainLoop_parents (deferredIndexes : bool) (ch : list BlockInfo) :
  forall (st : Coord) (B T : list Z),
    parents_first B T (snd (mainLoop deferredIndexes st ch)).
Proof.
  unfold mainLoop. induction ch as [|bi ch IH]; intros st B T; [exact I|].
  rewrite (proj2 (run_loop_cons (processBlock deferredIndexes) st bi ch)).
  apply parents_first_app; [apply processBlock_parents | apply IH].
Qed.

(** X9.  Program order of parents and children.  In every run, in either
    mode, the coordinator sends each tx record after the block record whose
    id it carries as block id, and each input or output record after a tx
    record that is not flagged [dupe] and has the id it carries as tx
    id. *)
Theorem coordinator_sends_parents_first :
  forall (deferredIndexes : bool) (st : Coord) (ch : list BlockInfo),
    parents_first [] [] (snd (mainLoop deferredIndexes st ch)).
Proof. intros d st ch. apply mainLoop_parents. Qed.

Lemma sync_waits_app (a : list Event) :
  forall (pending : bool) (b : list Event),
    sync_waits pending a = true ->
    sync_waits pending (a ++ b) = sync_waits false b.
Proof.
  induction a as [|e a IH]; intros pending b H.
  - destruct pending; [discriminate H | reflexivity].
  - cbn [app sync_waits] in *.
    destruct pending, e as [[r|]|[r|]|[r|]|[r|]|];
      try discriminate H; now apply IH.
Qed.

Lemma sync_waits_quiet (evs : list Event) :
  forallb is_quiet evs = true -> sync_waits false evs = true.
Proof.
  induction evs as [|e evs IH]; intros H; [reflexivity|].
  cbn [forallb] in H. apply andb_true_iff in H. destruct H as [H1 H2].
  destruct e as [[r|]|[r|]|[r|]|[r|]|]; try discriminate H1; now apply IH.
Qed.

Lemma forallb_map_true {A B : Type} (f : B -> bool) (g : A -> B) (l : list A) :
  (forall x, f (g x) = true) -> forallb f (map g l) = true.
Proof.
  intros H. induction l as [|x l IH]; simpl; [reflexivity|].
  now rewrite H, IH.
Qed.

Lemma children_quiet (id : Z) (ins : list TxIn) (outs : list TxOut) :
  forallb is_quiet (sendTxIns id ins ++ sendTxOuts id outs) = true /\
  forallb (fun e => negb (is_recv e)) (sendTxIns id ins ++ sendTxOuts id outs)
  = true.
Proof.
  rewrite !forallb_app. unfold sendTxIns, sendTxOuts.
  rewrite !forallb_map_true by reflexivity. split; reflexivity.
Qed.

Lemma processTx_handshake (st : Coord) (p : Z * Tx) :
  sync_waits false (snd (processTx true st p)) = true /\
  forallb (fun e => negb (is_recv e)) (snd (processTx false st p)) = true.
Proof.
  rewrite !(proj2 (processTx_unfold _ st p)). set (r := add _ _ _ _).
  destruct (children_quiet (incr64 (txid st)) (TxIns (snd p)) (TxOuts (snd p)))
    as [Q1 Q2].
  cbn [waitSync app sync_waits forallb is_recv negb andb].
  destruct (fst r =? incr64 (txid st)); split; trivial.
  now apply sync_waits_quiet.
Qed.

Lemma processBlock_handshake (st : Coord) (bi : BlockInfo) :
  sync_waits false (snd (processBlock false st bi)) = true /\
  forallb (fun e => negb (is_recv e)) (snd (processBlock true st bi)) = true.
Proof.
  rewrite !(proj2 (processBlock_unfold _ st bi)). split.
  - cbn [negb waitSync app sync_waits].
    rewrite sync_waits_app; [reflexivity|].
    apply (run_loop_all (fun evs => sync_waits false evs = true)).
    + reflexivity.
    + intros a b Ha Hb. now rewrite sync_waits_app.
    + intros st' x. apply processTx_handshake.
  - cbn [negb waitSync app forallb is_recv andb]. rewrite forallb_app.
    rewrite andb_true_iff. split.
    + apply (run_loop_all
               (fun evs => forallb (fun e => negb (is_recv e)) evs = true)).
      * reflexivity.
      * intros a b Ha Hb. now rewrite forallb_app, Ha, Hb.
      * intros st' x. apply processTx_handshake.
    + unfold commitSignals. cbn [negb].
      destruct (Z.rem (incr64 (bid st)) 50 =? 0); reflexivity.
Qed.

(** X10.  The sync handshake.  In synchronous mode the coordinator
    receives on the sync channel right after every block record and every
    tx record it sends, before it sends anything else, and at no other
    time; in deferred mode it never receives on the sync channel. *)
Theorem coordinator_waits_after_each_parent :
  forall (st : Coord) (ch : list BlockInfo),
    sync_waits false (snd (mainLoop false st ch)) = true /\
    forallb (fun e => negb (is_recv e)) (snd (mainLoop true st ch)) = true.
Proof.
  intros st ch. unfold mainLoop. split.
  - apply (run_loop_all (fun evs => sync_waits false evs = true)).
    + reflexivity.
    + intros a b Ha Hb. now rewrite sync_waits_app.
    + intros st' x. apply processBlock_handshake.
  - apply (run_loop_all
             (fun evs => forallb (fun e => negb (is_recv e)) evs = true)).
    + reflexivity.
    + intros a b Ha Hb. now rewrite forallb_app, Ha, Hb.
    + intros st' x. apply processBlock_handshake.
Qed.








(** ** Resume queries and start of the worker *)

(** X12.  [getLastTxId] returns the greatest id of [txs] and no error; 0
    and no error when the table is empty, whether or not a scan would
    fail; and 0 with the error when the query fails, when iterating fails,
    or when scanning the row fails. *)
Theorem getLastTxId_result :
  forall db : DB,
    (txs_fault db = NoFault -> txs db <> [] ->
     exists id, getLastTxId db = (id, None) /\
                In id (map t_id (txs db)) /\
                forall r, In r (txs db) -> t_id r <= id) /\
    (txs db = [] -> (txs_fault db = NoFault \/ exists e, txs_fault db = ScanFails e) ->
     getLastTxId db = (0, None)) /\
    (forall e, txs_fault db = QueryFails e \/ txs_fault db = RowsErr e \/
               (txs_fault db = ScanFails e /\ txs db <> []) ->
               getLastTxId db = (0, Some e)).
Proof.
  intros db. split; [|split].
  - intros F Hne. exact (proj2 (getLastTxId_greatest db F) Hne).
  - intros E [F|[e F]]; unfold getLastTxId; rewrite F, E; reflexivity.
  - intros e [F|[F|[F Hne]]]; unfold getLastTxId; rewrite F; try reflexivity.
    destruct (top_by t_id (txs db)) eqn:T; [reflexivity|].
    apply top_by_nil_iff in T. contradiction.
Qed.

(** An instance of X12: ids 1, 3 and 2 stored in that order, and a failing
    scan. *)
Lemma getLastTxId_result_witness :
  let rows := [mkTxRow 1 [x01] 1 0; mkTxRow 3 [x03] 1 0; mkTxRow 2 [x02] 1 0] in
  getLastTxId (mkDB [] rows NoFault NoFault None) = (3, None) /\
  getLastTxId (mkDB [] [] NoFault (ScanFails "bad"%string) None) = (0, None) /\
  getLastTxId (mkDB [] rows NoFault (ScanFails "bad"%string) None)
  = (0, Some "bad"%string).
Proof.
  intros rows. split; [|split].
  - destruct (getLastTxId_result (mkDB [] rows NoFault NoFault None))
      as (H & _ & _).
    destruct (H eq_refl ltac:(discriminate)) as (id & E & _ & _).
    rewrite E. simpl in E. exact (eq_sym E).
  - apply (getLastTxId_result (mkDB [] [] NoFault (ScanFails "bad"%string) None));
      [reflexivity|]. right. now exists "bad"%string.
  - apply (getLastTxId_result (mkDB [] rows NoFault (ScanFails "bad"%string) None)).
    right; right. split; [reflexivity | discriminate].
Defined.

(** X13.  Without a stored last hash there is no skip mode.  When the
    resume queries succeed and the last hash is empty (an empty [blocks]
    table in particular), the worker ingests the input from its first
    block on, with the counters the queries returned: no block is
    dropped.  When either resume query reports an error the worker sends
    nothing at all. *)
Theorem no_skip_without_last_hash :
  forall (db : DB) (ch : list BlockInfo) (deferredIndexes : bool)
         (cacheSize : Z),
    (forall bid0 height0 txid0,
        getLastHashAndHeight db = (bid0, height0, [], None) ->
        getLastTxId db = (txid0, None) ->
        pgBlockWorker ch db deferredIndexes cacheSize
        = Some (mainLoop deferredIndexes
                  (mkCoord bid0 txid0 0 (newTxIdCache cacheSize)) ch)) /\
    (blocks db = [] -> txs db = [] ->
     blocks_fault db = NoFault -> txs_fault db = NoFault ->
     pgBlockWorker ch db deferredIndexes cacheSize
     = Some (mainLoop deferredIndexes
               (mkCoord 0 0 0 (newTxIdCache cacheSize)) ch)) /\
    (snd (getLastHashAndHeight db) <> None \/ snd (getLastTxId db) <> None ->
     pgBlockWorker ch db deferredIndexes cacheSize = None).
Proof.
  intros db ch d cs. split; [|split].
  - intros bid0 height0 txid0 H1 H2. unfold pgBlockWorker.
    rewrite H1, H2. reflexivity.
  - intros B T FB FT. unfold pgBlockWorker, getLastHashAndHeight, getLastTxId.
    rewrite B, T, FB, FT. reflexivity.
  - unfold pgBlockWorker.
    destruct (getLastHashAndHeight db) as [[[b h] bh] [e|]]; [reflexivity|].
    destruct (getLastTxId db) as [t [e|]]; [reflexivity|].
    simpl. intros [H|H]; contradiction.
Qed.

(** An instance of X13: an empty store, a stored block whose hash is
    empty, and a failing tx query. *)
Lemma no_skip_without_last_hash_witness :
  let ch := [Sample.bi0; Sample.bi1] in
  let row := mkBlockRow 7 0 [] 1 [] [] 0 0 0 false 0 0 0 in
  option_map (fun res => map br_id (recs (blockCh (snd res))))
    (pgBlockWorker ch Sample.emptyDB true 10) = Some [1; 2] /\
  option_map (fun res => map br_id (recs (blockCh (snd res))))
    (pgBlockWorker ch (mkDB [row] [] NoFault NoFault None) true 10)
  = Some [8; 9] /\
  pgBlockWorker ch (mkDB [] [] NoFault (QueryFails "down"%string) None) true 10
  = None.
Proof.
  intros ch row. split; [|split].
  - rewrite (proj1 (proj2 (no_skip_without_last_hash Sample.emptyDB ch true 10))
               eq_refl eq_refl eq_refl eq_refl).
    reflexivity.
  - rewrite (proj1 (no_skip_without_last_hash
                      (mkDB [row] [] NoFault NoFault None) ch true 10)
               7 0 0 eq_refl eq_refl).
    reflexivity.
  - apply (no_skip_without_last_hash
             (mkDB [] [] NoFault (QueryFails "down"%string) None) ch true 10).
    right. discriminate.
Defined.

(** ** More on [Uint256] and the integer columns *)

Lemma Uint256_String_hex (u : Uint256) :
  wf_Uint256 u -> Uint256_String u = hex_of_bytes (rev u).
Proof.
  intros Hu. unfold Uint256_String. rewrite String_loop_spec.
  rewrite (visited_bytes_rev u Hu). reflexivity.
Qed.

(** X14.  [String] is injective on [Uint256] values: two different hashes
    never print as the same text. *)
Theorem Uint256_String_injective :
  forall u v : Uint256,
    wf_Uint256 u -> wf_Uint256 v ->
    Uint256_String u = Uint256_String v -> u = v.
Proof.
  intros u v Hu Hv E.
  rewrite (Uint256_String_hex u Hu), (Uint256_String_hex v Hv) in E.
  apply (f_equal Hex.decode) in E. rewrite !hex_of_bytes_decode in E.
  injection E as E. rewrite <- (rev_involutive u), <- (rev_involutive v).
  now rewrite E.
Qed.

(** An instance of X14: two sample block hashes print differently. *)
Lemma Uint256_String_injective_witness :
  wf_Uint256 (Sample.h32 xa0) /\ wf_Uint256 (Sample.h32 xa1) /\
  Uint256_String (Sample.h32 xa0) <> Uint256_String (Sample.h32 xa1).
Proof.
  split; [reflexivity|]. split; [reflexivity|]. intros E.
  pose proof (Uint256_String_injective (Sample.h32 xa0) (Sample.h32 xa1)
                eq_refl eq_refl E) as H.
  discriminate H.
Defined.

Lemma int32_id (x : Z) : is_int32 x -> int32 x = x.
Proof.
  unfold is_int32, int32, swrap. change (32 - 1) with 31.
  rewrite pow2_31, pow2_32. intros H.
  rewrite Z.mod_small by lia. lia.
Qed.

(** X15.  Whatever the input, the values the block writer stores in the
    columns [version], [time], [bits], [nonce], [status], [filen] and
    [filepos] fit a signed 32-bit column; and the fields [status], [filen]
    and [filepos], which are [int]s, are stored unchanged when they are
    within the signed 32-bit range, negative values included. *)
Theorem block_row_casts_fit_int32 :
  forall br : blockRec,
    let b := blockRow br in
    (is_int32 (b_version b) /\ is_int32 (b_time b) /\ is_int32 (b_bits b) /\
     is_int32 (b_nonce b) /\ is_int32 (b_status b) /\ is_int32 (b_filen b) /\
     is_int32 (b_filepos b)) /\
    (is_int32 (br_status br) -> b_status b = br_status br) /\
    (is_int32 (br_filen br) -> b_filen b = br_filen br) /\
    (is_int32 (br_filepos br) -> b_filepos b = br_filepos br).
Proof.
  intros br. cbv zeta. simpl.
  repeat split; try apply int32_range; apply int32_id.
Qed.

(** An instance of X15: a status of -1 and a file position of 8. *)
Lemma block_row_casts_fit_int32_witness :
  let br := mkBlockRec 1 0 (Sample.block xa0 x00 []) (Sample.h32 xa0)
              false (-1) 0 8 false in
  b_status (blockRow br) = -1 /\ b_filepos (blockRow br) = 8.
Proof.
  intros br.
  assert (H1 : is_int32 (br_status br))
    by (split; [vm_compute; discriminate | reflexivity]).
  assert (H2 : is_int32 (br_filepos br))
    by (split; [vm_compute; discriminate | reflexivity]).
  destruct (block_row_casts_fit_int32 br) as (_ & S1 & _ & S3).
  split; [exact (S1 H1) | exact (S3 H2)].
Defined.

(** ** The fixup statements *)

Lemma fixPrevoutRow_backfilled (txs : list TxRow) (i : TxInRow) :
  backfilled txs i (fixPrevoutRow txs i).
Proof.
  unfold backfilled, fixPrevoutRow.
  destruct (i_prevout_tx_id i) as [p|] eqn:Ep.
  - split; [reflexivity|]. split; [reflexivity|]. split.
    + intros id H. discriminate H.
    + intros _ _. rewrite Ep. discriminate.
  - destruct (i_n i =? -1) eqn:En.
    + apply Z.eqb_eq in En. split; [reflexivity|]. split; [reflexivity|]. split.
      * intros id _ H. congruence.
      * intros Hn. contradiction.
    + destruct (find (fun t => bytes_eqb (i_prevout_hash i) (t_txid t)) txs)
        as [t|] eqn:Ef.
      * apply find_some in Ef. destruct Ef as [Hin Hm].
        apply bytes_eqb_eq in Hm. cbn [i_prevout_tx_id].
        split; [reflexivity|]. split; [intros H; now contradiction H|]. split.
        -- intros id _ [= <-]. exists t. repeat split; congruence.
        -- intros _ _. discriminate.
      * split; [reflexivity|]. split; [reflexivity|]. split.
        -- intros id _ H. congruence.
        -- intros _ (t & Hin & Ht). exfalso.
           pose proof (find_none _ _ Ef t Hin) as Hn. simpl in Hn.
           rewrite <- Ht, bytes_eqb_refl in Hn. discriminate Hn.
Qed.

Lemma fixPrevoutRow_idem (txs : list TxRow) (i : TxInRow) :
  fixPrevoutRow txs (fixPrevoutRow txs i) = fixPrevoutRow txs i.
Proof.
  destruct (i_prevout_tx_id i) as [p|] eqn:Ep.
  - unfold fixPrevoutRow. rewrite Ep. now rewrite Ep.
  - destruct (i_n i =? -1) eqn:En.
    + unfold fixPrevoutRow. rewrite Ep, En. now rewrite Ep, En.
    + destruct (find (fun t => bytes_eqb (i_prevout_hash i) (t_txid t)) txs)
        as [t|] eqn:Ef.
      * unfold fixPrevoutRow. rewrite Ep, En, Ef. reflexivity.
      * unfold fixPrevoutRow. rewrite Ep, En, Ef. now rewrite Ep, En, Ef.
Qed.

(** X16.  The prevout back-fill.  When the constraint [txins_tx_id_fkey]
    exists, [fixPrevoutTxId] leaves [txins] as it is.  Otherwise it keeps
    the number and order of the rows and every column but
    [prevout_tx_id]; a row that had a [prevout_tx_id] keeps it; a
    [prevout_tx_id] it sets is the id of a row of [txs] whose [txid] is the
    row's [prevout_hash]; afterwards every row with [n <> -1] whose
    [prevout_hash] is the [txid] of some row of [txs] has a
    [prevout_tx_id]; and running it again changes nothing. *)
Theorem fixPrevoutTxId_backfills_missing :
  forall (txs : list TxRow) (txins : list TxInRow),
    fixPrevoutTxId true txs txins = txins /\
    Forall2 (backfilled txs) txins (fixPrevoutTxId false txs txins) /\
    fixPrevoutTxId false txs (fixPrevoutTxId false txs txins)
    = fixPrevoutTxId false txs txins.
Proof.
  intros txs txins. split; [reflexivity|]. unfold fixPrevoutTxId. split.
  - induction txins as [|i txins IH]; constructor;
      [apply fixPrevoutRow_backfilled | exact IH].
  - rewrite map_map. apply map_ext. intros i. apply fixPrevoutRow_idem.
Qed.

(** An instance of X16: an input whose previous transaction was not in
    the cache at load time, next to a resolved one and an unknown one. *)
Lemma fixPrevoutTxId_backfills_missing_witness :
  let txs := [mkTxRow 1 (Sample.h32 x01) 1 0; mkTxRow 3 (Sample.h32 x02) 1 0] in
  let row := fun n h p => mkTxInRow 4 n (Sample.h32 h) 0 [] (-1) None p in
  map i_prevout_tx_id
      (fixPrevoutTxId false txs [row 0 x01 None; row 1 x02 (Some 3); row 2 x07 None])
  = [Some 1; Some 3; None].
Proof.
  intros txs row.
  pose proof (fixPrevoutTxId_backfills_missing txs
                [row 0 x01 None; row 1 x02 (Some 3); row 2 x07 None]) as H.
  destruct H as (_ & H & _).
  inversion H as [|i o l l' (_ & _ & _ & Hc) _]; subst.
  reflexivity.
Defined.

Lemma filter_unique_key {A : Type} (f : A -> list byte) (k : list byte)
  (l : list A) :
  NoDup (map f l) ->
  filter (fun t => bytes_eqb (f t) k) l
  = match find (fun t => bytes_eqb (f t) k) l with
    | Some t => [t]
    | None => []
    end.
Proof.
  induction l as [|x l IH]; intros Hnd; [reflexivity|].
  simpl in Hnd. inversion Hnd as [|? ? Hx Hnd']; subst.
  cbn [filter find]. destruct (bytes_eqb (f x) k) eqn:E.
  - apply bytes_eqb_eq in E. subst k. f_equal.
    rewrite IH by exact Hnd'.
    destruct (find (fun t => bytes_eqb (f t) (f x)) l) as [t|] eqn:Ef;
      [|reflexivity].
    apply find_some in Ef. destruct Ef as [Hin Hm]. apply bytes_eqb_eq in Hm.
    exfalso. apply Hx. rewrite <- Hm. now apply in_map.
  - now apply IH.
Qed.

(** X17.  UTXO linking.  When the constraint [utxos_pkey] exists,
    [linkUTXOs] leaves [utxos] as it is.  Otherwise the new table holds
    exactly the pairs of a former row and a row of [txs] with the same
    [txid], with [tx_id] set to that row's id and the other columns kept:
    every row has a [tx_id], and an entry whose [txid] is not in [txs] is
    dropped.  When the [txid]s of [txs] are distinct, each remaining entry
    appears once, in the former order. *)
Theorem linkUTXOs_joins_on_txid :
  forall (txs : list TxRow) (utxos : list UtxoRow),
    linkUTXOs true txs utxos = utxos /\
    (forall r, In r (linkUTXOs false txs utxos) <->
               exists u t, In u utxos /\ In t txs /\
                           t_txid t = x_txid u /\ r = linkRow u t) /\
    Forall (fun r => x_tx_id r <> None) (linkUTXOs false txs utxos) /\
    (NoDup (map t_txid txs) ->
     map utxo_cols (linkUTXOs false txs utxos)
     = map utxo_cols
         (filter (fun u => existsb (fun t => bytes_eqb (t_txid t) (x_txid u)) txs)
                 utxos)).
Proof.
  intros txs utxos. split; [reflexivity|]. unfold linkUTXOs.
  assert (M : forall r, In r (flat_map
                 (fun u => map (linkRow u)
                    (filter (fun t => bytes_eqb (t_txid t) (x_txid u)) txs)) utxos)
               <-> exists u t, In u utxos /\ In t txs /\
                               t_txid t = x_txid u /\ r = linkRow u t).
  { intros r. rewrite in_flat_map. split.
    - intros (u & Hu & Hr). apply in_map_iff in Hr. destruct Hr as (t & <- & Ht).
      apply filter_In in Ht. destruct Ht as [Ht Hm]. apply bytes_eqb_eq in Hm.
      now exists u, t.
    - intros (u & t & Hu & Ht & Hm & ->). exists u. split; [exact Hu|].
      apply in_map. apply filter_In. split; [exact Ht|]. now apply bytes_eqb_eq. }
  split; [exact M|]. split.
  - apply Forall_forall. intros r Hr. apply M in Hr.
    destruct Hr as (u & t & _ & _ & _ & ->). discriminate.
  - intros Hnd. induction utxos as [|u utxos IH]; [reflexivity|].
    cbn [flat_map filter]. rewrite map_app, IH.
    + rewrite (filter_unique_key t_txid (x_txid u) txs Hnd).
      destruct (find (fun t => bytes_eqb (t_txid t) (x_txid u)) txs) as [t|] eqn:Ef.
      * assert (Ex : existsb (fun t => bytes_eqb (t_txid t) (x_txid u)) txs = true).
        { apply existsb_exists. apply find_some in Ef. now exists t. }
        rewrite Ex. reflexivity.
      * assert (Ex : existsb (fun t => bytes_eqb (t_txid t) (x_txid u)) txs = false).
        { apply not_true_is_false. intros H. apply existsb_exists in H.
          destruct H as (t & Ht & Hm).
          pose proof (find_none _ _ Ef t Ht) as Hn. simpl in Hn. congruence. }
        rewrite Ex. reflexivity.
    + intros r. rewrite in_flat_map. split.
      * intros (u' & Hu & Hr). apply in_map_iff in Hr.
        destruct Hr as (t & <- & Ht). apply filter_In in Ht.
        destruct Ht as [Ht Hm]. apply bytes_eqb_eq in Hm. now exists u', t.
      * intros (u' & t & Hu & Ht & Hm & ->). exists u'. split; [exact Hu|].
        apply in_map. apply filter_In. split; [exact Ht|]. now apply bytes_eqb_eq.
Qed.

(** An instance of X17: one entry of a stored transaction and one of an
    unknown transaction. *)
Lemma linkUTXOs_joins_on_txid_witness :
  let txs := [mkTxRow 1 (Sample.h32 x01) 1 0; mkTxRow 3 (Sample.h32 x02) 1 0] in
  let u1 := mkUtxoRow None (Sample.h32 x02) 0 1 false 4000000000 [xac] in
  let u2 := mkUtxoRow None (Sample.h32 x09) 0 5 false 7 [xac] in
  NoDup (map t_txid txs) /\
  map utxo_cols (linkUTXOs false txs [u1; u2]) = [utxo_cols u1] /\
  map x_tx_id (linkUTXOs false txs [u1; u2]) = [Some 3].
Proof.
  intros txs u1 u2.
  assert (Hnd : NoDup (map t_txid txs)).
  { repeat constructor; simpl; [intros [H|[]]; discriminate H | intros []]. }
  split; [exact Hnd|]. split; [|reflexivity].
  destruct (linkUTXOs_joins_on_txid txs [u1; u2]) as (_ & _ & _ & H).
  rewrite (H Hnd). reflexivity.
Defined.

Lemma recur_base_spec (blocks : list BlockRow) (r : RecurRow) :
  In r (recur_base blocks) <->
  exists b, chain_at blocks 0 b /\ r = mkRecurRow (b_id b) (b_prevhash b) 0.
Proof.
  unfold recur_base. destruct (top_by b_height blocks) as [top|] eqn:E.
  - destruct (top_by_max _ _ _ E) as [Htop Hmax]. rewrite in_map_iff. split.
    + intros (b & <- & Hb). apply filter_In in Hb. destruct Hb as [Hb Hh].
      apply Z.eqb_eq in Hh. exists b. split; [|reflexivity].
      constructor; [exact Hb|]. intros c Hc. rewrite Hh. now apply Hmax.
    + intros (b & Hc & ->). inversion Hc as [b' Hb Hm|]; subst.
      exists b. split; [reflexivity|]. apply filter_In. split; [exact Hb|].
      apply Z.eqb_eq. pose proof (Hmax b Hb). pose proof (Hm top Htop). lia.
  - apply top_by_nil_iff in E. subst blocks. split; [intros []|].
    intros (b & Hc & _). inversion Hc as [b' Hb _|]; subst. destruct Hb.
Qed.

Lemma recur_step_spec (limit : Z) (blocks : list BlockRow) (w : list RecurRow)
  (r : RecurRow) :
  In r (recur_step limit blocks w) <->
  exists r0 b,
    In r0 w /\ ((0 <? limit) = false \/ rc_n r0 < limit) /\
    In b blocks /\ b_hash b = rc_prevhash r0 /\
    r = mkRecurRow (b_id b) (b_prevhash b) (rc_n r0 + 1).
Proof.
  unfold recur_step. rewrite in_flat_map. split.
  - intros (r0 & Hr0 & Hr).
    destruct ((0 <? limit) && negb (rc_n r0 <? limit)) eqn:C; [destruct Hr|].
    apply in_map_iff in Hr. destruct Hr as (b & <- & Hb).
    apply filter_In in Hb. destruct Hb as [Hb Hm]. apply bytes_eqb_eq in Hm.
    exists r0, b. repeat split; trivial.
    destruct (0 <? limit); [|now left]. right.
    simpl in C. apply Bool.negb_false_iff in C. now apply Z.ltb_lt.
  - intros (r0 & b & Hr0 & Hc & Hb & Hm & ->). exists r0. split; [exact Hr0|].
    assert (C : (0 <? limit) && negb (rc_n r0 <? limit) = false).
    { destruct Hc as [Hc|Hc]; [now rewrite Hc|].
      apply Z.ltb_lt in Hc. rewrite Hc. apply andb_false_r. }
    rewrite C. apply in_map_iff. exists b. split; [reflexivity|].
    apply filter_In. split; [exact Hb|]. now apply bytes_eqb_eq.
Qed.

(** The rows of round [k] are the blocks [k] links below a block of
    greatest height, as far as the limit allows. *)
Lemma recur_level_spec (limit : Z) (blocks : list BlockRow) (k : nat) :
  forall r,
    In r (recur_level limit blocks k) <->
    exists b, chain_at blocks k b /\
              r = mkRecurRow (b_id b) (b_prevhash b) (Z.of_nat k) /\
              (0 < limit -> Z.of_nat k <= limit).
Proof.
  unfold recur_level. induction k as [|k IH]; intros r.
  - cbn [Nat.iter nat_rect]. rewrite recur_base_spec. split.
    + intros (b & H1 & H2). exists b. repeat split; trivial; lia.
    + intros (b & H1 & H2 & _). now exists b.
  - rewrite Nat.iter_succ, recur_step_spec. split.
    + intros (r0 & b & Hr0 & Hc & Hb & Hm & ->).
      apply IH in Hr0. destruct Hr0 as (c & Hch & -> & Hl). cbn [rc_n rc_prevhash] in *.
      exists b. split; [|split].
      * now apply (chain_parent blocks k c b).
      * f_equal. lia.
      * intros Hpos. destruct Hc as [Hc|Hc]; [apply Z.ltb_ge in Hc|]; lia.
    + intros (b & Hch & -> & Hl). inversion Hch as [|k' c b' Hc Hb Hm]; subst.
      exists (mkRecurRow (b_id c) (b_prevhash c) (Z.of_nat k)), b.
      cbn [rc_n rc_prevhash]. split; [|split; [|split; [|split]]]; trivial.
      * apply IH. exists c. repeat split; trivial. intros Hpos.
        specialize (Hl Hpos). lia.
      * destruct (0 <? limit) eqn:P; [|now left]. right.
        apply Z.ltb_lt in P. specialize (Hl P). lia.
      * f_equal. lia.
Qed.

Lemma recur_step_nil (limit : Z) (blocks : list BlockRow) (j : nat) :
  Nat.iter j (recur_step limit blocks) [] = [].
Proof. induction j as [|j IH]; [reflexivity|]. now rewrite Nat.iter_succ, IH. Qed.

(** The result of the recursive query is the union of its rounds. *)
Lemma recur_rows_spec (limit : Z) (blocks : list BlockRow) (fuel : nat) :
  forall (w x : list RecurRow),
    recur_rows fuel limit blocks w = Some x ->
    forall r, In r x <-> exists j, In r (Nat.iter j (recur_step limit blocks) w).
Proof.
  induction fuel as [|fuel IH]; intros w x H r.
  - destruct w; [|discriminate H]. injection H as <-. split; [intros []|].
    intros (j & Hj). now rewrite recur_step_nil in Hj.
  - destruct w as [|r0 w].
    + injection H as <-. split; [intros []|].
      intros (j & Hj). now rewrite recur_step_nil in Hj.
    + cbn [recur_rows] in H.
      destruct (recur_rows fuel limit blocks (recur_step limit blocks (r0 :: w)))
        as [x'|] eqn:E; [|discriminate H].
      assert (Ex : x = (r0 :: w) ++ x') by congruence. subst x. clear H.
      rewrite in_app_iff, (IH _ _ E r). split.
      * intros [Hr|(j & Hj)]; [now exists 0%nat|].
        exists (S j). now rewrite Nat.iter_succ_r.
      * intros ([|j] & Hj); [now left|]. right. exists j.
        now rewrite <- Nat.iter_succ_r.
Qed.

(** X18.  Orphan marking.  When [setOrphans] finishes, it keeps the rows
    of [blocks] and all their columns but [orphan], and it sets [orphan]
    for every row, whatever it was: to false exactly for the ids of the
    blocks reached from a block of greatest height by following [prevhash]
    to [hash], through at most [limit] links when [limit] is positive, and
    to true for every other row.  With a positive limit the rows further
    down the chain are thus marked as orphans too. *)
Theorem setOrphans_marks_unreached_blocks :
  forall (fuel : nat) (limit : Z) (blocks out : list BlockRow),
    setOrphans fuel limit blocks = Some out ->
    Forall2 (fun b o =>
               o = set_orphan b (b_orphan o) /\
               (b_orphan o = false <-> on_walk limit blocks b))
            blocks out.
Proof.
  intros fuel limit blocks out H. unfold setOrphans in H.
  destruct (recur_rows fuel limit blocks (recur_base blocks)) as [x|] eqn:E;
    [|discriminate H].
  injection H as <-.
  assert (W : forall b,
             existsb (fun r => rc_id r =? b_id b) x = true
             <-> on_walk limit blocks b).
  { intros b. rewrite existsb_exists. unfold on_walk. split.
    - intros (r & Hr & Hid). apply Z.eqb_eq in Hid.
      apply (recur_rows_spec _ _ _ _ _ E) in Hr. destruct Hr as (j & Hj).
      apply (recur_level_spec limit blocks j) in Hj.
      destruct Hj as (c & Hc & -> & Hl). now exists j, c.
    - intros (k & c & Hc & Hid & Hl).
      exists (mkRecurRow (b_id c) (b_prevhash c) (Z.of_nat k)). split.
      + apply (recur_rows_spec _ _ _ _ _ E). exists k.
        apply (recur_level_spec limit blocks k). now exists c.
      + now apply Z.eqb_eq. }
  clear E.
  assert (G : forall l,
             Forall2 (fun b o =>
                        o = set_orphan b (b_orphan o) /\
                        (b_orphan o = false <-> on_walk limit blocks b))
                     l
                     (map (fun b =>
                             set_orphan b
                               (negb (existsb (fun r => rc_id r =? b_id b) x)))
                          l)).
  { induction l as [|b l IH]; constructor; [|exact IH].
    split; [reflexivity|]. cbn [set_orphan b_orphan].
    rewrite Bool.negb_false_iff. apply W. }
  apply G.
Qed.

(** An instance of X18: the store after the first sample load, a chain of
    three blocks and a side block at height 1, which alone is marked. *)
Lemma setOrphans_marks_unreached_blocks_witness :
  exists out,
    setOrphans 10 0 (blocks Sample.storeAfter) = Some out /\
    map b_orphan out = [false; false; false; true] /\
    Forall2 (fun b o =>
               o = set_orphan b (b_orphan o) /\
               (b_orphan o = false <-> on_walk 0 (blocks Sample.storeAfter) b))
            (blocks Sample.storeAfter) out.
Proof.
  eexists. split; [reflexivity|]. split; [reflexivity|].
  apply (setOrphans_marks_unreached_blocks 10 0). reflexivity.
Defined.








(** ** Keys of the rows written in a run *)

Lemma sorted_NoDup (l : list Z) : StronglySorted Z.lt l -> NoDup l.
Proof.
  induction 1 as [|a l _ IH Ha]; constructor; [|exact IH].
  intros Hin. rewrite Forall_forall in Ha. specialize (Ha a Hin). lia.
Qed.

Lemma enum_from_keys {B : Type} (c : Z) (xs : list B) :
  forall i,
    NoDup (map (fun p => (c, fst p)) (enum_from i xs)) /\
    Forall (fun p => i <= fst p) (enum_from i xs).
Proof.
  induction xs as [|x xs IH]; intros i; [split; constructor|].
  destruct (IH (i + 1)) as [N F]. cbn [enum_from map]. split.
  - constructor; [|exact N]. intros Hin. apply in_map_iff in Hin.
    destruct Hin as (p & Hp & Hin). rewrite Forall_forall in F.
    specialize (F p Hin). cbn [fst] in Hp. injection Hp as Hp. lia.
  - constructor; [simpl; lia|]. eapply Forall_impl; [|exact F]. simpl. lia.
Qed.

Lemma map_flat_map {A B C : Type} (g : B -> C) (f : A -> list B) (l : list A) :
  map g (flat_map f l) = flat_map (fun a => map g (f a)) l.
Proof.
  induction l as [|a l IH]; [reflexivity|]. cbn [flat_map].
  now rewrite map_app, IH.
Qed.

(** Keys made of an id and an index are distinct when the ids are strictly
    increasing. *)
Lemma flat_keys_NoDup {A B : Type} (id : A -> Z) (items : A -> list B)
  (T : list A) :
  StronglySorted Z.lt (map id T) ->
  NoDup (flat_map (fun r => map (fun p => (id r, fst p)) (enumerate (items r))) T).
Proof.
  induction T as [|r T IH]; intros Hs; [constructor|].
  cbn [map] in Hs. apply StronglySorted_inv in Hs. destruct Hs as [Hs Hr].
  cbn [flat_map]. apply NoDup_app.
  - apply enum_from_keys.
  - now apply IH.
  - intros key H1 H2. apply in_map_iff in H1. destruct H1 as (p & <- & _).
    apply in_flat_map in H2. destruct H2 as (r' & Hr' & H2).
    apply in_map_iff in H2. destruct H2 as (p' & E & _). injection E as E _.
    rewrite Forall_forall in Hr.
    specialize (Hr (id r') (in_map id T r' Hr')). lia.
Qed.

Lemma expected_positions_keys (ch : list BlockInfo) :
  forall b0,
    NoDup (map (fun p => (fst (fst p), snd (fst p))) (expected_positions b0 ch)) /\
    Forall (fun p => b0 < fst (fst p)) (expected_positions b0 ch).
Proof.
  induction ch as [|bi ch IH]; intros b0; [split; constructor|].
  destruct (IH (b0 + 1)) as [N F]. cbn [expected_positions]. split.
  - rewrite map_app, map_map. cbn [fst snd]. apply NoDup_app.
    + apply enum_from_keys.
    + exact N.
    + intros key H1 H2. apply in_map_iff in H1. destruct H1 as (p & <- & _).
      apply in_map_iff in H2. destruct H2 as (p' & E & Hp').
      rewrite Forall_forall in F. specialize (F p' Hp').
      injection E as E _. lia.
  - apply Forall_app. split.
    + apply Forall_forall. intros p Hp. apply in_map_iff in Hp.
      destruct Hp as (q & <- & _). simpl. lia.
    + eapply Forall_impl; [|exact F]. simpl. lia.
Qed.

Lemma mainLoop_children (deferredIndexes : bool) (st : Coord) (ch : list BlockInfo) :
  children_match (snd (mainLoop deferredIndexes st ch)).
Proof.
  unfold mainLoop. apply run_loop_all.
  - split; reflexivity.
  - apply children_match_app.
  - apply processBlock_children.
Qed.

Lemma row_of_keys (l : list txInRec) (rows : list TxInRow) :
  Forall2 (fun tr r => exists cache', row_of r tr cache') l rows ->
  map (fun r => (i_tx_id r, i_n r)) rows = map (fun tr => (ir_txId tr, ir_n tr)) l.
Proof.
  induction 1 as [|tr r l rows (cache' & Hr) _ IH]; [reflexivity|].
  cbn [map]. rewrite IH. f_equal. unfold row_of in Hr. subst r.
  unfold txInRow.
  destruct (negb (op_N (PrevOut (ir_txIn tr)) =? 4294967295));
    [destruct (check cache' (op_Hash (PrevOut (ir_txIn tr))))|]; reflexivity.
Qed.

(** X20.  Keys within a run.  As long as the counters do not overflow,
    the rows a run adds to empty tables have distinct keys, for the keys
    the fixup phase later declares primary: [id] in [blocks] and in [txs],
    [(block_id, n)] in [block_txs], [(tx_id, n)] in [txins] and in
    [txouts]. *)
Theorem keys_distinct_within_a_run :
  forall (deferredIndexes : bool) (st : Coord) (ch : list BlockInfo)
         (others : nat -> txIdCache -> txIdCache) (cache : txIdCache),
    - 2 ^ 63 <= bid st ->
    bid st + Z.of_nat (List.length ch) < 2 ^ 63 ->
    - 2 ^ 63 <= txid st ->
    txid st + total_txs ch < 2 ^ 63 ->
    let evs := snd (mainLoop deferredIndexes st ch) in
    NoDup (map b_id (pgBlockWriter (blockCh evs) [])) /\
    NoDup (map t_id (fst (pgTxWriter (txCh evs) [] []))) /\
    NoDup (map (fun r => (bt_block_id r, bt_n r))
               (snd (pgTxWriter (txCh evs) [] []))) /\
    NoDup (map (fun r => (i_tx_id r, i_n r))
               (pgTxInWriter others (txInCh evs) cache [])) /\
    NoDup (map (fun r => (o_tx_id r, o_n r)) (pgTxOutWriter (txOutCh evs) [])).
Proof.
  intros d st ch others cache Hb1 Hb2 Ht1 Ht2. cbv zeta.
  destruct (mainLoop_ids d ch st Hb1 Hb2 Ht1 Ht2) as (_ & _ & I3 & I4 & _).
  destruct (mainLoop_positions d ch st Hb1 Hb2) as [P1 _].
  destruct (mainLoop_children d st ch) as [C1 C2].
  pose proof (proj1 (minted_ok_sorted _ _ I4)) as Hs.
  set (evs := snd (mainLoop d st ch)) in *.
  rewrite pgTxWriter_rows. cbn [fst snd].
  split; [|split; [|split; [|split]]].
  - unfold pgBlockWriter.
    rewrite (proj1 (pgBlockWriter_loop_rows _ (begin []))). simpl.
    rewrite map_map.
    rewrite (map_ext (fun x => b_id (blockRow x)) br_id) by reflexivity.
    rewrite I3. apply sorted_NoDup, count_up_sorted.
  - rewrite map_map.
    rewrite (map_ext (fun x => t_id (txRow x)) tr_id) by reflexivity.
    now apply sorted_NoDup.
  - rewrite map_map.
    rewrite (map_ext (fun x => (bt_block_id (blockTxRow x), bt_n (blockTxRow x)))
                     (fun r => (tr_blockId r, tr_n r))) by reflexivity.
    replace (map (fun r => (tr_blockId r, tr_n r)) (recs (txCh evs)))
      with (map (fun p : Z * Z * Tx => (fst (fst p), snd (fst p)))
                (map (fun r => (tr_blockId r, tr_n r, tr_tx r)) (recs (txCh evs))))
      by (now rewrite map_map).
    rewrite P1. apply expected_positions_keys.
  - unfold pgTxInWriter.
    destruct (pgTxInWriter_loop_forall2 others (txInCh evs) 0 cache (begin []))
      as (rows & E & F).
    rewrite E. simpl. rewrite (row_of_keys _ _ F), C1, map_flat_map.
    unfold txInRecsOf.
    erewrite flat_map_ext; [apply (flat_keys_NoDup tr_id (fun r => TxIns (tr_tx r)) _ Hs)|].
    intros r. now rewrite map_map.
  - unfold pgTxOutWriter. rewrite pgTxOutWriter_loop_rows. simpl.
    rewrite map_map.
    rewrite (map_ext (fun x => (o_tx_id (txOutRow x), o_n (txOutRow x)))
                     (fun r => (or_txId r, or_n r))) by reflexivity.
    rewrite C2, map_flat_map.
    unfold txOutRecsOf.
    erewrite flat_map_ext; [apply (flat_keys_NoDup tr_id (fun r => TxOuts (tr_tx r)) _ Hs)|].
    intros r. now rewrite map_map.
Qed.

(** An instance of X20: the three sample blocks. *)
Lemma keys_distinct_within_a_run_witness :
  let evs := snd (mainLoop true (Sample.st0 10)
                    [Sample.bi0; Sample.bi1; Sample.bi2]) in
  map (fun r => (o_tx_id r, o_n r)) (pgTxOutWriter (txOutCh evs) [])
  = [(1, 0); (3, 0); (3, 1)] /\
  NoDup (map (fun r => (o_tx_id r, o_n r)) (pgTxOutWriter (txOutCh evs) [])).
Proof.
  intros evs. split; [reflexivity|].
  assert (H1 : - 2 ^ 63 <= 0) by (vm_compute; discriminate).
  assert (H2 : 0 + Z.of_nat (List.length [Sample.bi0; Sample.bi1; Sample.bi2])
               < 2 ^ 63) by reflexivity.
  assert (H4 : 0 + total_txs [Sample.bi0; Sample.bi1; Sample.bi2] < 2 ^ 63)
    by reflexivity.
  exact (proj2 (proj2 (proj2 (proj2
           (keys_distinct_within_a_run true (Sample.st0 10)
              [Sample.bi0; Sample.bi1; Sample.bi2] (fun _ x => x)
              (newTxIdCache 10) H1 H2 H1 H4))))).
Defined.








